(** * Person detector: the shared-memory publishing protocol of detector.cpp

    A shallow embedding of [main] in detector.cpp: the [DetectionData]
    record that lives in the System V shared memory segment, the per-frame
    filter over the YOLO output rows, the stores that publish one frame, the
    streaming loop and the start-up and teardown calls around it.

    Conventions of the model.
    - [int] values are integers of [Z]; additions and subtractions that can
      leave the range of an [int] wrap at 32 bits ([wrap32]).
    - [float] and [double] values are the rationals they denote ([Q]); NaN and
      the infinities are outside the model.  The rounding of a [float]
      product is a parameter, [fmul]; the casts between [int] and [float]
      are [float_to_int] and [int_to_float].
    - the array [boxes[50]] is a list updated in place by index. *)

From Stdlib Require Import ZArith QArith Lia Lqa Sorted.
From stdpp Require Import base tactics option list sorting.
From Equations Require Import Equations.

Local Open Scope Z_scope.

(** ** Machine integers *)

(** Two's complement wrap-around of a 32-bit [int]. *)
Definition wrap32 (z : Z) : Z := (z + 2 ^ 31) mod 2 ^ 32 - 2 ^ 31.

Definition INT_MAX : Z := 2 ^ 31 - 1.

Definition INT_MIN : Z := - 2 ^ 31.

(** A value an [int] can hold. *)
Definition in_int (z : Z) : bool := (INT_MIN <=? z) && (z <=? INT_MAX).

(** A real number cut to an integer toward zero. *)
Definition trunc (q : Q) : Z := Z.quot (Qnum q) (Zpos (Qden q)).

(** [(int)f] for a float [f]: truncation toward zero when the result fits an
    [int].  Otherwise the conversion is undefined in C++; the value here is
    the one the x86-64 conversion instruction leaves, [INT_MIN]. *)
Definition float_to_int (q : Q) : Z :=
  if in_int (trunc q) then trunc q else INT_MIN.

(** The integer nearest to [n] that binary32 can hold: [n] itself up to 24
    significant bits, and beyond that [n] rounded to 24 significant bits,
    to the even neighbour on a tie. *)
Definition round_binary32 (n : Z) : Z :=
  let a := Z.abs n in
  let e := Z.log2 a - 23 in
  if e <=? 0 then n
  else
    let u := 2 ^ e in
    let q := a / u in
    let r := a mod u in
    let q' := if (u <? 2 * r) || ((2 * r =? u) && Z.odd q) then q + 1 else q in
    Z.sgn n * (q' * u).

(** [(float)n] for an int [n], as in the stores [boxes[i].x = box.x]. *)
Definition int_to_float (n : Z) : Q := inject_Z (round_binary32 n).

(** ** The shared record *)

(** [struct DetectionData::BBox]. *)
Record BBox := mkBBox {
  box_x : Q;
  box_y : Q;
  box_width : Q;
  box_height : Q;
  box_confidence : Q
}.

(** [struct DetectionData]; [boxes] has 50 entries in every region. *)
Record DetectionData := mkDetectionData {
  frame_number : Z;
  num_detections : Z;
  boxes : list BBox;
  processing_complete : bool
}.

(** Max 50 detections per frame. *)
Definition CAPACITY : nat := 50.

Definition zero_box : BBox := mkBBox 0 0 0 0 0.

(** The region after [memset(sharedData, 0, sizeof(DetectionData))]. *)
Definition zeroed : DetectionData :=
  mkDetectionData 0 0 (replicate CAPACITY zero_box) false.

(** ** Stores into the region

    Every assignment through [sharedData] is one store to one scalar of the
    record.  A reader in another process can look at the region between any
    two of them. *)

Inductive field := Fx | Fy | Fwidth | Fheight | Fconfidence.

Inductive store :=
| St_frame_number (v : Z)
| St_num_detections (v : Z)
| St_box (i : nat) (f : field) (v : Q)
| St_processing_complete (b : bool).

Definition set_field (f : field) (v : Q) (b : BBox) : BBox :=
  match f with
  | Fx => mkBBox v (box_y b) (box_width b) (box_height b) (box_confidence b)
  | Fy => mkBBox (box_x b) v (box_width b) (box_height b) (box_confidence b)
  | Fwidth => mkBBox (box_x b) (box_y b) v (box_height b) (box_confidence b)
  | Fheight => mkBBox (box_x b) (box_y b) (box_width b) v (box_confidence b)
  | Fconfidence => mkBBox (box_x b) (box_y b) (box_width b) (box_height b) v
  end.

Definition get_field (f : field) (b : BBox) : Q :=
  match f with
  | Fx => box_x b
  | Fy => box_y b
  | Fwidth => box_width b
  | Fheight => box_height b
  | Fconfidence => box_confidence b
  end.

(** One store.  An index past the array is undefined behaviour in C++; the
    list update leaves the list alone there, and [publish_stores] never
    produces such an index. *)
Definition apply_store (sd : DetectionData) (s : store) : DetectionData :=
  match s with
  | St_frame_number v =>
      mkDetectionData v (num_detections sd) (boxes sd) (processing_complete sd)
  | St_num_detections v =>
      mkDetectionData (frame_number sd) v (boxes sd) (processing_complete sd)
  | St_box i f v =>
      mkDetectionData (frame_number sd) (num_detections sd)
        (alter (set_field f v) i (boxes sd)) (processing_complete sd)
  | St_processing_complete b =>
      mkDetectionData (frame_number sd) (num_detections sd) (boxes sd) b
  end.

Definition apply_stores (sd : DetectionData) (l : list store) : DetectionData :=
  fold_left apply_store l sd.

(** ** Rectangles and the publish of one frame *)

(** [cv::Rect]: top-left corner, width, height. *)
Record Rect := mkRect {
  rect_x : Z;
  rect_y : Z;
  rect_width : Z;
  rect_height : Z
}.

Definition empty_rect : Rect := mkRect 0 0 0 0.

(** The body of the copy loop for index [i]: [idx = indices[i]],
    [box = boxes[idx]], then five stores into [sharedData->boxes[i]]. *)
Definition box_stores (indices : list nat) (rects : list Rect)
    (confidences : list Q) (i : nat) : list store :=
  let idx := nth i indices 0%nat in
  let box := nth idx rects empty_rect in
  [ St_box i Fx (int_to_float (rect_x box));
    St_box i Fy (int_to_float (rect_y box));
    St_box i Fwidth (int_to_float (rect_width box));
    St_box i Fheight (int_to_float (rect_height box));
    St_box i Fconfidence (nth idx confidences 0%Q) ].

(** [min((int)indices.size(), 50)]. *)
Definition capped (indices : list nat) : Z :=
  Z.min (Z.of_nat (length indices)) 50.

(** The copy loop run for [n] turns: [for (i = 0; i < n; ++i)]. *)
Definition copy_loop (indices : list nat) (rects : list Rect)
    (confidences : list Q) (n : nat) : list store :=
  concat (map (box_stores indices rects confidences) (seq 0 n)).

(** "Update shared memory with detections": the stores of one frame in
    program order.  The loop bound is read back from the region, which only
    this process writes, so it is the value stored just before. *)
Definition publish_stores (frameCount : Z) (indices : list nat)
    (rects : list Rect) (confidences : list Q) : list store :=
  St_frame_number frameCount
  :: St_num_detections (capped indices)
  :: copy_loop indices rects confidences (Z.to_nat (capped indices)).

Definition publish (sd : DetectionData) (frameCount : Z) (indices : list nat)
    (rects : list Rect) (confidences : list Q) : DetectionData :=
  apply_stores sd (publish_stores frameCount indices rects confidences).

(** The entry a publish leaves at index [i] for a suppressor output. *)
Definition published_box (indices : list nat) (rects : list Rect)
    (confidences : list Q) (i : nat) : BBox :=
  let idx := nth i indices 0%nat in
  let box := nth idx rects empty_rect in
  mkBBox (int_to_float (rect_x box)) (int_to_float (rect_y box))
    (int_to_float (rect_width box)) (int_to_float (rect_height box))
    (nth idx confidences 0%Q).

(** ** Rationals as booleans *)

(** [a > b] on floats. *)
Definition Qgtb (a b : Q) : bool := negb (Qle_bool a b).

(** ** YOLO parameters *)

(** [float confThreshold = 0.5]. *)
Definition confThreshold : Q := 1 # 2.

(** [float nmsThreshold = 0.4]: the binary32 value nearest to 0.4. *)
Definition nmsThreshold : Q := 13421773 # 33554432.

(** ** The detection filter *)

(** One row of an output blob: center-x, center-y, width, height, objectness,
    then one score per class. *)
Definition Row := list Q.

(** An output [Mat] of the network, row by row. *)
Definition Mat := list Row.

(** A decoded frame: [frame.cols], [frame.rows] and its pixels. *)
Record Frame := mkFrame {
  cols : Z;
  rows : Z;
  pixels : list Z
}.

(** The scan behind [minMaxLoc]: the running maximum and where it was first
    seen. *)
Fixpoint max_scan (scores : list Q) (i : Z) (best : Q * Z) : Q * Z :=
  match scores with
  | [] => best
  | s :: rest =>
      max_scan rest (i + 1) (if Qgtb s (fst best) then (s, i) else best)
  end.

(** Modelled from the spec: [cv::minMaxLoc] is OpenCV code, not part of
    detector.cpp.  The filter "thresholds raw per-class scores, selects the
    target class": the call yields the greatest class score and the column
    it stands in, the first one on a tie.  A row without class scores, which
    no YOLO output has, is given 0 and -1 here and so is never accepted. *)
Definition minMaxLoc (scores : list Q) : Q * Z :=
  match scores with
  | [] => (0%Q, -1)
  | s :: rest => max_scan rest 1 (s, 0)
  end.

(** What the filter pushes for one accepted row: onto [classIds],
    [confidences] and [boxes]. *)
Record Candidate := mkCandidate {
  cand_class : Z;
  cand_confidence : Q;
  cand_box : Rect
}.

(** ** The suppressor *)

(** [std::pair<float, int>]: a score and the index of its box. *)
Definition score_index : Type := Q * nat.

Definition rect_area (r : Rect) : Z := rect_width r * rect_height r.

(** Area of the intersection of two rectangles, 0 when they do not meet. *)
Definition inter_area (a b : Rect) : Z :=
  let w := Z.min (rect_x a + rect_width a) (rect_x b + rect_width b)
           - Z.max (rect_x a) (rect_x b) in
  let h := Z.min (rect_y a + rect_height a) (rect_y b + rect_height b)
           - Z.max (rect_y a) (rect_y b) in
  if (0 <? w) && (0 <? h) then w * h else 0.

(** Modelled from the spec: the overlap measure of [cv::dnn::NMSBoxes],
    which is OpenCV code and not part of detector.cpp.  "Area of
    intersection divided by area of union." *)
Definition IoU (a b : Rect) : Q :=
  (inject_Z (inter_area a b)
   / inject_Z (rect_area a + rect_area b - inter_area a b))%Q.

(** Insertion into a list sorted by descending score, behind the entries
    with a greater score and before those with an equal one. *)
Fixpoint insert_desc (p : score_index) (l : list score_index)
    : list score_index :=
  match l with
  | [] => [p]
  | q :: l' => if Qgtb (fst q) (fst p) then q :: insert_desc p l' else p :: l
  end.

(** Stable sort by descending score. *)
Definition sort_desc (l : list score_index) : list score_index :=
  foldr insert_desc [] l.

(** The scores above [score_threshold], each with its index. *)
Definition score_indices (scores : list Q) (score_threshold : Q)
    : list score_index :=
  List.filter (fun p => Qgtb (fst p) score_threshold)
    (zip scores (seq 0 (length scores))).

(** [b] may stay next to the emitted [a]: their overlap does not exceed the
    threshold. *)
Definition compatible (nms_threshold : Q) (bboxes : list Rect)
    (a b : score_index) : bool :=
  Qle_bool (IoU (nth (snd a) bboxes empty_rect) (nth (snd b) bboxes empty_rect))
    nms_threshold.

(** Modelled from the spec: the greedy loop of [cv::dnn::NMSBoxes].
    "Repeatedly take the highest-scoring remaining box, emit it, and discard
    any remaining box whose intersection-over-union with it exceeds
    nmsThreshold." *)
Equations? suppress (nms_threshold : Q) (bboxes : list Rect)
    (l : list score_index) : list score_index by wf (length l) lt :=
  suppress nms_threshold bboxes [] := [];
  suppress nms_threshold bboxes (c :: rest) :=
    c :: suppress nms_threshold bboxes
           (List.filter (compatible nms_threshold bboxes c) rest).
Proof.
  simpl. apply Nat.lt_succ_r, List.filter_length_le.
Qed.

(** Modelled from the spec: [cv::dnn::NMSBoxes], OpenCV code that is not
    part of detector.cpp.  "Sort descending by confidence; repeatedly take
    the highest-scoring remaining box, emit it, and discard any remaining box
    whose intersection-over-union with it exceeds nmsThreshold ... ties
    broken by original candidate order."  The third argument of the call
    drops the scores that do not exceed it before the sort.  The result is
    the list of the indices of the boxes that survive. *)
Definition NMSBoxes (bboxes : list Rect) (scores : list Q)
    (score_threshold nms_threshold : Q) : list nat :=
  map snd (suppress nms_threshold bboxes
             (sort_desc (score_indices scores score_threshold))).

(** ** Events of a run

    What the process does to the segment, in program order: the System V
    calls, the [memset], and the stores through [sharedData].  Console
    output and [usleep] are left out; loading the network happens before the
    first event. *)

Inductive event :=
| Ev_shmget
| Ev_shmat
| Ev_memset
| Ev_store (s : store)
| Ev_shmdt
| Ev_shmctl_rmid.

(** How [main] ends: [return code], or an exception that nothing catches. *)
Inductive outcome :=
| Returned (code : Z)
| Terminated.

(** What [main] finds when it starts: whether the video opens, whether
    [shmget] and [shmat] succeed, and the frames [cap >> frame] yields before
    the empty one. *)
Record Environment := mkEnvironment {
  video_opens : bool;
  shmget_succeeds : bool;
  shmat_succeeds : bool;
  video : list Frame
}.

(** The events of [main] before the loop when all three start-up calls
    succeed: create, attach, "Initialize shared memory". *)
Definition init_events : list event :=
  [Ev_shmget; Ev_shmat; Ev_memset; Ev_store (St_processing_complete false)].

(** The events of [main] after the loop: "Mark processing as complete" and
    "Detach shared memory". *)
Definition final_events : list event :=
  [Ev_store (St_processing_complete true); Ev_shmdt].

Section Detector.

(** [a * b] on floats: the product rounded to binary32. *)
Variable fmul : Q -> Q -> Q.

(** [net.forward(outs, outNames)] on the blob of a frame: the output
    blobs, or [None] when the call throws. *)
Variable forward : Frame -> option (list Mat).

(** The box of a row in pixels of the original frame, in [int] arithmetic:
    the subtractions wrap at 32 bits. *)
Definition decode (frame : Frame) (data : Row) : Rect :=
  let centerX := float_to_int (fmul (nth 0 data 0%Q) (int_to_float (cols frame))) in
  let centerY := float_to_int (fmul (nth 1 data 0%Q) (int_to_float (rows frame))) in
  let width := float_to_int (fmul (nth 2 data 0%Q) (int_to_float (cols frame))) in
  let height := float_to_int (fmul (nth 3 data 0%Q) (int_to_float (rows frame))) in
  let left := wrap32 (centerX - Z.quot width 2) in
  let top := wrap32 (centerY - Z.quot height 2) in
  mkRect left top width height.

(** The body of the inner loop: class 0 is 'person' in COCO. *)
Definition filter_row (frame : Frame) (data : Row) : list Candidate :=
  let '(confidence, classId) := minMaxLoc (drop 5 data) in
  if (classId =? 0) && Qgtb confidence confThreshold
  then [mkCandidate classId confidence (decode frame data)]
  else [].

(** "Process detections": both loops, over the blobs and over their rows. *)
Definition filter_outs (frame : Frame) (outs : list Mat) : list Candidate :=
  flat_map (fun out => flat_map (filter_row frame) out) outs.

(** One turn of the loop after [net.forward] returned [outs]: filter,
    suppress, and the stores that publish the frame. *)
Definition frame_stores (frame : Frame) (outs : list Mat) (frameCount : Z)
    : list store :=
  let candidates := filter_outs frame outs in
  let confidences := map cand_confidence candidates in
  let rects := map cand_box candidates in
  let indices := NMSBoxes rects confidences confThreshold nmsThreshold in
  publish_stores frameCount indices rects confidences.

(** [while (true)]: the events of the loop from [frameCount] on, and the
    final [frameCount], or [None] when [net.forward] throws. *)
Fixpoint stream (frames : list Frame) (frameCount : Z)
    : list event * option Z :=
  match frames with
  | [] => ([], Some frameCount)
  | frame :: rest =>
      let frameCount := wrap32 (frameCount + 1) in
      match forward frame with
      | None => ([], None)
      | Some outs =>
          let '(evs, r) := stream rest frameCount in
          (map Ev_store (frame_stores frame outs frameCount) ++ evs, r)
      end
  end.

(** [main], from [VideoCapture cap(videoPath)] on. *)
Definition main (env : Environment) : list event * outcome :=
  if negb (video_opens env) then ([], Returned (-1))
  else if negb (shmget_succeeds env) then ([], Returned (-1))
  else if negb (shmat_succeeds env) then ([Ev_shmget], Returned (-1))
  else
    match stream (video env) 0 with
    | (evs, None) => (init_events ++ evs, Terminated)
    | (evs, Some _) => (init_events ++ evs ++ final_events, Returned 0)
    end.

End Detector.

(** ** The segment as the operating system and a reader see it *)

(** The segment behind the key: whether it exists, whether this process has
    it mapped, and its bytes. *)
Record Segment := mkSegment {
  seg_exists : bool;
  seg_attached : bool;
  seg_data : DetectionData
}.

(** The effect of one event.  [shmget] with [IPC_CREAT] creates a zero-filled
    segment when there is none and takes the one that is there otherwise;
    [shmctl(IPC_RMID)] is the call that destroys a segment. *)
Definition os_step (g : Segment) (e : event) : Segment :=
  match e with
  | Ev_shmget =>
      if seg_exists g then g else mkSegment true (seg_attached g) zeroed
  | Ev_shmat => mkSegment (seg_exists g) true (seg_data g)
  | Ev_memset =>
      if seg_attached g then mkSegment (seg_exists g) true zeroed else g
  | Ev_store s =>
      if seg_attached g
      then mkSegment (seg_exists g) true (apply_store (seg_data g) s)
      else g
  | Ev_shmdt => mkSegment (seg_exists g) false (seg_data g)
  | Ev_shmctl_rmid => mkSegment false (seg_attached g) (seg_data g)
  end.

Definition run_segment (g : Segment) (evs : list event) : Segment :=
  fold_left os_step evs g.

(** The values of [frame_number] a run stores, in order. *)
Definition published_frame_numbers (evs : list event) : list Z :=
  flat_map (fun e => match e with
                     | Ev_store (St_frame_number v) => [v]
                     | _ => []
                     end) evs.

(** What a reader sees when it looks after the first [k] stores of a
    publish. *)
Definition observe (sd : DetectionData) (stores : list store) (k : nat)
    : DetectionData :=
  apply_stores sd (take k stores).

(** The scalars of the record, and the scalar a store writes. *)
Inductive loc :=
| L_frame_number
| L_num_detections
| L_box (i : nat) (f : field)
| L_processing_complete.

Inductive cell :=
| C_int (z : Z)
| C_float (q : Q)
| C_bool (b : bool)
| C_unmapped.

Definition read (sd : DetectionData) (l : loc) : cell :=
  match l with
  | L_frame_number => C_int (frame_number sd)
  | L_num_detections => C_int (num_detections sd)
  | L_box i f =>
      match boxes sd !! i with
      | Some b => C_float (get_field f b)
      | None => C_unmapped
      end
  | L_processing_complete => C_bool (processing_complete sd)
  end.

Definition store_loc (s : store) : loc :=
  match s with
  | St_frame_number _ => L_frame_number
  | St_num_detections _ => L_num_detections
  | St_box i f _ => L_box i f
  | St_processing_complete _ => L_processing_complete
  end.

(** An environment in which the video opens and the segment is created and
    attached. *)
Definition starts (env : Environment) : Prop :=
  video_opens env = true /\ shmget_succeeds env = true /\
  shmat_succeeds env = true.

(** An event that writes to the region. *)
Definition writes (e : event) : bool :=
  match e with
  | Ev_memset | Ev_store _ => true
  | _ => false
  end.

(** The store that raises the completion flag. *)
Definition sets_complete (e : event) : bool :=
  match e with
  | Ev_store (St_processing_complete true) => true
  | _ => false
  end.

(** A store of the per-frame publish: anything but the completion flag. *)
Definition publish_event (e : event) : bool :=
  match e with
  | Ev_store (St_frame_number _) | Ev_store (St_num_detections _)
  | Ev_store (St_box _ _ _) => true
  | _ => false
  end.

(** The order of the suppressor's output: a greater score first, and of two
    equal scores the one that came first among the candidates. *)
Definition ranks_before (a b : score_index) : Prop :=
  (fst b < fst a)%Q \/ ((fst a == fst b)%Q /\ (snd a < snd b)%nat).

(** The same order on the indices of the candidates. *)
Definition precedes (scores : list Q) (i j : nat) : Prop :=
  ranks_before (nth i scores 0%Q, i) (nth j scores 0%Q, j).

(** The overlap of the boxes [i] and [j] does not exceed the threshold. *)
Definition apart (nms_threshold : Q) (bboxes : list Rect) (i j : nat) : Prop :=
  (IoU (nth i bboxes empty_rect) (nth j bboxes empty_rect) <= nms_threshold)%Q.

(** What the candidates of the suppressor carry: a score above the score
    threshold, and the index at which that score stands. *)
Definition scored (scores : list Q) (score_threshold : Q) (p : score_index)
    : Prop :=
  (snd p < length scores)%nat /\ nth (snd p) scores 0%Q = fst p /\
  (score_threshold < fst p)%Q.

(** The entry of the region for a published detection, from the candidate
    it copies. *)
Definition entry_of (c : Candidate) : BBox :=
  mkBBox (int_to_float (rect_x (cand_box c)))
    (int_to_float (rect_y (cand_box c)))
    (int_to_float (rect_width (cand_box c)))
    (int_to_float (rect_height (cand_box c)))
    (cand_confidence c).

(** The region after one turn of the loop on [frame], the inference having
    returned [outs]. *)
Definition process_frame (fmul : Q -> Q -> Q) (sd : DetectionData)
    (frame : Frame) (outs : list Mat) (frameCount : Z) : DetectionData :=
  apply_stores sd (frame_stores fmul frame outs frameCount).

(** ** A small run

    A network that finds one person in the middle of every frame and throws
    on a frame without pixels, and two videos over it. *)

(** One output blob with one row: a person in the middle of the frame. *)
Definition demo_outs : list Mat :=
  [[[1 # 2; 1 # 2; 1 # 2; 1 # 2; 1; 9 # 10; 1 # 10]%Q]].

Definition demo_forward (frame : Frame) : option (list Mat) :=
  match pixels frame with
  | [] => None
  | _ :: _ => Some demo_outs
  end.

Definition good_frame : Frame := mkFrame 3 3 [0; 0; 0; 0; 0; 0; 0; 0; 0].

Definition bad_frame : Frame := mkFrame 3 3 [].

Definition demo_env (frames : list Frame) : Environment :=
  mkEnvironment true true true frames.

(** A network that finds a row of 60 people, side by side, in a frame whose
    first pixel is 1, and nobody in any other frame. *)
Definition crowd_row (i : nat) : Row :=
  [Z.of_nat (20 * i + 10) # 1200; 1 # 2; 10 # 1200; 1 # 2; 1;
   Z.of_nat (200 - i) # 201]%Q.

Definition crowd_forward (frame : Frame) : option (list Mat) :=
  match pixels frame with
  | 1 :: _ => Some [map crowd_row (seq 0 60)]
  | _ => Some [[]]
  end.

(** The values of [num_detections] a run stores, in order. *)
Definition published_counts (evs : list event) : list Z :=
  flat_map (fun e => match e with
                     | Ev_store (St_num_detections v) => [v]
                     | _ => []
                     end) evs.

(** ** The whole program and what a reader can find *)

(** [main] from its first line: the check of [argc], the loading of the
    network ([readNetFromDarknet] throws when a model file is missing), then
    the rest. *)
Definition program (fmul : Q -> Q -> Q) (forward : Frame -> option (list Mat))
    (argc : Z) (net_loads : bool) (env : Environment) : list event * outcome :=
  if negb (argc =? 2) then ([], Returned (-1))
  else if negb net_loads then ([], Terminated)
  else main fmul forward env.

(** The stores among the events of a run, in order. *)
Definition stores_of (evs : list event) : list store :=
  flat_map (fun e => match e with Ev_store s => [s] | _ => [] end) evs.

(** The record in the segment after the first [k] events of a run that
    started on the segment [g]: what a reader finds when it looks then. *)
Definition region_at (fmul : Q -> Q -> Q) (forward : Frame -> option (list Mat))
    (env : Environment) (g : Segment) (k : nat) : DetectionData :=
  seg_data (run_segment g (take k (fst (main fmul forward env)))).

(** A store that stays inside the record: a count between 0 and 50, an entry
    of [boxes] below 50. *)
Definition store_in_bounds (s : store) : Prop :=
  match s with
  | St_num_detections v => 0 <= v <= 50
  | St_box i _ _ => (i < CAPACITY)%nat
  | _ => True
  end.

Definition event_in_bounds (e : event) : Prop :=
  match e with
  | Ev_store s => store_in_bounds s
  | _ => True
  end.

(** A record a consumer can read without leaving the array. *)
Definition well_formed (sd : DetectionData) : Prop :=
  0 <= num_detections sd <= 50 /\ length (boxes sd) = CAPACITY.

(** The loop as a function on the record: the record after the frames, one
    [process_frame] after the other, up to the first frame on which the
    inference throws. *)
Fixpoint run_frames (fmul : Q -> Q -> Q) (forward : Frame -> option (list Mat))
    (frames : list Frame) (frameCount : Z) (sd : DetectionData)
    : DetectionData :=
  match frames with
  | [] => sd
  | frame :: rest =>
      let frameCount := wrap32 (frameCount + 1) in
      match forward frame with
      | None => sd
      | Some outs =>
          run_frames fmul forward rest frameCount
            (process_frame fmul sd frame outs frameCount)
      end
  end.

(** What a consumer reads of a record: the entries below [num_detections]. *)
Definition read_detections (sd : DetectionData) : list BBox :=
  take (Z.to_nat (num_detections sd)) (boxes sd).

(** The rectangle and the confidence of an entry, the coordinates back as
    integers. *)
Definition entry_rect (b : BBox) : Rect :=
  mkRect (float_to_int (box_x b)) (float_to_int (box_y b))
    (float_to_int (box_width b)) (float_to_int (box_height b)).

Definition entry_detection (b : BBox) : Rect * Q :=
  (entry_rect b, box_confidence b).

(** The number of rows in the output blobs of one inference. *)
Definition total_rows (outs : list Mat) : nat :=
  length (concat outs).

(** The float products of [decode], before the casts to [int]. *)
Definition center_x_px (fmul : Q -> Q -> Q) (frame : Frame) (data : Row) : Q :=
  fmul (nth 0 data 0%Q) (int_to_float (cols frame)).

Definition center_y_px (fmul : Q -> Q -> Q) (frame : Frame) (data : Row) : Q :=
  fmul (nth 1 data 0%Q) (int_to_float (rows frame)).

Definition width_px (fmul : Q -> Q -> Q) (frame : Frame) (data : Row) : Q :=
  fmul (nth 2 data 0%Q) (int_to_float (cols frame)).

Definition height_px (fmul : Q -> Q -> Q) (frame : Frame) (data : Row) : Q :=
  fmul (nth 3 data 0%Q) (int_to_float (rows frame)).

(** The entry a publish writes for the candidate with index [idx]. *)
Definition entry_at (rects : list Rect) (confidences : list Q) (idx : nat)
    : BBox :=
  let box := nth idx rects empty_rect in
  mkBBox (int_to_float (rect_x box)) (int_to_float (rect_y box))
    (int_to_float (rect_width box)) (int_to_float (rect_height box))
    (nth idx confidences 0%Q).

(** An integer that binary32 holds exactly, whatever its low bits. *)
Definition exact_in_float (n : Z) : Prop := Z.abs n < 2 ^ 24.

(** A rectangle whose four numbers survive the store as [float]. *)
Definition exact_rect (r : Rect) : Prop :=
  exact_in_float (rect_x r) /\ exact_in_float (rect_y r) /\
  exact_in_float (rect_width r) /\ exact_in_float (rect_height r).

(** A product that is not negative and whose cast to [int] is defined. *)
Definition pixel_range (q : Q) : Prop :=
  (0 <= q)%Q /\ (q < inject_Z (2 ^ 31))%Q.

(** The number of frames the loop gets through: the frames before the first
    one on which the inference throws. *)
Fixpoint frames_processed (forward : Frame -> option (list Mat))
    (frames : list Frame) : nat :=
  match frames with
  | [] => 0
  | frame :: rest =>
      match forward frame with
      | Some _ => S (frames_processed forward rest)
      | None => 0
      end
  end.

(** * Properties *)

(** ** Comparisons on rationals *)

Lemma Qgtb_lt (a b : Q) : Qgtb a b = true <-> (b < a)%Q.
Proof.
  unfold Qgtb. rewrite negb_true_iff. split.
  - intros H. apply Qnot_le_lt. intros Hle.
    apply Qle_bool_iff in Hle. congruence.
  - intros H. destruct (Qle_bool a b) eqn:E; [ | reflexivity ].
    apply Qle_bool_iff in E. exfalso. exact (Qlt_not_le _ _ H E).
Qed.

Lemma Qgtb_le (a b : Q) : Qgtb a b = false <-> (a <= b)%Q.
Proof.
  unfold Qgtb. rewrite negb_false_iff. apply Qle_bool_iff.
Qed.

(** ** Stores *)

Lemma apply_stores_app sd l1 l2 :
  apply_stores sd (l1 ++ l2) = apply_stores (apply_stores sd l1) l2.
Proof. apply fold_left_app. Qed.

Lemma capped_range indices : 0 <= capped indices <= 50.
Proof. unfold capped. lia. Qed.

Lemma capped_nat indices :
  Z.to_nat (capped indices) = Nat.min (length indices) CAPACITY.
Proof. unfold capped, CAPACITY. lia. Qed.

(** The five stores of one turn of the copy loop fill entry [i]. *)
Lemma apply_box_stores sd indices rects confidences i :
  apply_stores sd (box_stores indices rects confidences i) =
  mkDetectionData (frame_number sd) (num_detections sd)
    (alter (fun _ => published_box indices rects confidences i) i (boxes sd))
    (processing_complete sd).
Proof.
  unfold apply_stores, box_stores. simpl. f_equal.
  rewrite !list_alter_alter_eq. apply list_alter_ext; [ | reflexivity ].
  intros b _. reflexivity.
Qed.

Lemma copy_loop_S indices rects confidences n :
  copy_loop indices rects confidences (S n) =
  copy_loop indices rects confidences n ++ box_stores indices rects confidences n.
Proof.
  unfold copy_loop. rewrite seq_S, map_app, concat_app. simpl.
  reflexivity.
Qed.

Lemma copy_loop_header sd indices rects confidences n :
  let sd' := apply_stores sd (copy_loop indices rects confidences n) in
  frame_number sd' = frame_number sd /\
  num_detections sd' = num_detections sd /\
  processing_complete sd' = processing_complete sd.
Proof.
  induction n as [ | n IH ]; [ simpl; auto | ].
  rewrite copy_loop_S, apply_stores_app, apply_box_stores. simpl.
  exact IH.
Qed.

Lemma copy_loop_boxes sd indices rects confidences n i :
  boxes (apply_stores sd (copy_loop indices rects confidences n)) !! i =
  if (i <? n)%nat
  then (fun _ => published_box indices rects confidences i) <$> boxes sd !! i
  else boxes sd !! i.
Proof.
  induction n as [ | n IH ]; [ reflexivity | ].
  rewrite copy_loop_S, apply_stores_app, apply_box_stores. simpl.
  destruct (decide (n = i)) as [-> | Hne].
  - rewrite list_lookup_alter_eq, IH.
    rewrite Nat.ltb_irrefl.
    replace (i <? S i)%nat with true by (symmetry; apply Nat.ltb_lt; lia).
    reflexivity.
  - rewrite list_lookup_alter_ne by exact Hne. rewrite IH.
    destruct (Nat.ltb_spec i n), (Nat.ltb_spec i (S n)); (reflexivity || lia).
Qed.

Lemma publish_unfold sd frameCount indices rects confidences :
  publish sd frameCount indices rects confidences =
  apply_stores
    (mkDetectionData frameCount (capped indices) (boxes sd)
       (processing_complete sd))
    (copy_loop indices rects confidences (Z.to_nat (capped indices))).
Proof. reflexivity. Qed.

Lemma publish_header sd frameCount indices rects confidences :
  let sd' := publish sd frameCount indices rects confidences in
  frame_number sd' = frameCount /\
  num_detections sd' = capped indices /\
  processing_complete sd' = processing_complete sd.
Proof.
  rewrite publish_unfold.
  apply (copy_loop_header
           (mkDetectionData frameCount (capped indices) (boxes sd)
              (processing_complete sd))).
Qed.

Lemma publish_boxes sd frameCount indices rects confidences i :
  boxes (publish sd frameCount indices rects confidences) !! i =
  if (i <? Z.to_nat (capped indices))%nat
  then (fun _ => published_box indices rects confidences i) <$> boxes sd !! i
  else boxes sd !! i.
Proof.
  rewrite publish_unfold.
  exact (copy_loop_boxes
           (mkDetectionData frameCount (capped indices) (boxes sd)
              (processing_complete sd)) indices rects confidences _ i).
Qed.

(** ** Scalars of the record: what a store leaves alone *)

Lemma field_eq_dec (f g : field) : {f = g} + {f <> g}.
Proof. decide equality. Qed.

Lemma classic_loc_eq (l l' : loc) : l = l' \/ l <> l'.
Proof.
  destruct l as [ | | i f | ], l' as [ | | j g | ];
    try (left; reflexivity); try (right; discriminate).
  destruct (decide (i = j)) as [-> | Hij]; [ | right; congruence ].
  destruct (field_eq_dec f g) as [-> | Hfg]; [ left | right; congruence ].
  reflexivity.
Qed.

Lemma get_set_field_other f g v b :
  f <> g -> get_field g (set_field f v b) = get_field g b.
Proof. destruct f, g; intros H; try reflexivity; congruence. Qed.

Lemma read_apply_store_other sd s l :
  store_loc s <> l -> read (apply_store sd s) l = read sd l.
Proof.
  destruct s as [v | v | i f v | b], l as [ | | j g | ]; simpl;
    intros H; try reflexivity; try congruence.
  destruct (decide (i = j)) as [-> | Hij].
  - rewrite list_lookup_alter_eq.
    destruct (boxes sd !! j) as [b | ]; simpl; [ | reflexivity ].
    rewrite get_set_field_other; [ reflexivity | congruence ].
  - rewrite list_lookup_alter_ne by exact Hij. reflexivity.
Qed.

Lemma read_apply_stores_other ss : forall sd l,
  Forall (fun s => store_loc s <> l) ss ->
  read (apply_stores sd ss) l = read sd l.
Proof.
  induction ss as [ | s ss IH ]; intros sd l H; [ reflexivity | ].
  inversion H as [ | ? ? Hs Hss ]; subst.
  change (apply_stores sd (s :: ss)) with (apply_stores (apply_store sd s) ss).
  rewrite IH by exact Hss.
  apply read_apply_store_other, Hs.
Qed.

(** When no scalar is stored twice, a reader that looks after [k] stores
    finds in each scalar the value from before the first store or the value
    after the last one. *)
Lemma observe_mix ss : forall sd k l,
  NoDup (store_loc <$> ss) ->
  read (observe sd ss k) l = read sd l \/
  read (observe sd ss k) l = read (apply_stores sd ss) l.
Proof.
  induction ss as [ | s ss IH ]; intros sd k l Hnd.
  - left. unfold observe. rewrite take_nil. reflexivity.
  - destruct k as [ | k ]; [ left; reflexivity | ].
    rewrite fmap_cons in Hnd. apply NoDup_cons in Hnd as [Hs Hnd].
    change (observe sd (s :: ss) (S k)) with (observe (apply_store sd s) ss k).
    change (apply_stores sd (s :: ss)) with (apply_stores (apply_store sd s) ss).
    destruct (IH (apply_store sd s) k l Hnd) as [H | H]; [ | right; exact H ].
    rewrite H.
    destruct (classic_loc_eq (store_loc s) l) as [E | E].
    + right. symmetry. apply read_apply_stores_other.
      apply Forall_forall. intros s' Hin Heq. apply Hs.
      rewrite <- E in Heq. rewrite <- Heq.
      apply list_elem_of_fmap_2, Hin.
    + left. apply read_apply_store_other, E.
Qed.

Lemma box_stores_locs indices rects confidences i :
  store_loc <$> box_stores indices rects confidences i =
  [L_box i Fx; L_box i Fy; L_box i Fwidth; L_box i Fheight; L_box i Fconfidence].
Proof. reflexivity. Qed.

Lemma copy_loop_locs indices rects confidences n l :
  l ∈ store_loc <$> copy_loop indices rects confidences n ->
  exists i f, l = L_box i f /\ (i < n)%nat.
Proof.
  induction n as [ | n IH ].
  - intros H. inversion H.
  - rewrite copy_loop_S, fmap_app, box_stores_locs, elem_of_app.
    intros [H | H].
    + destruct (IH H) as (i & f & -> & Hi). exists i, f. split; [ reflexivity | lia ].
    + rewrite !elem_of_cons in H.
      destruct H as [-> | [-> | [-> | [-> | [-> | H]]]]];
        try (eexists _, _; split; [ reflexivity | lia ]).
      inversion H.
Qed.

Lemma copy_loop_NoDup indices rects confidences n :
  NoDup (store_loc <$> copy_loop indices rects confidences n).
Proof.
  induction n as [ | n IH ]; [ constructor | ].
  rewrite copy_loop_S, fmap_app, box_stores_locs.
  apply NoDup_app. split; [ exact IH | split ].
  - intros l Hl Hin. apply copy_loop_locs in Hl as (i & f & -> & Hi).
    rewrite !elem_of_cons in Hin.
    destruct Hin as [E | [E | [E | [E | [E | E]]]]];
      try (injection E as E _; lia).
    inversion E.
  - repeat (apply NoDup_cons; split;
            [ rewrite ?elem_of_cons, elem_of_nil; intuition congruence | ]).
    constructor.
Qed.

(** No scalar of the record is stored twice by one publish. *)
Lemma publish_stores_NoDup frameCount indices rects confidences :
  NoDup (store_loc <$> publish_stores frameCount indices rects confidences).
Proof.
  unfold publish_stores. rewrite !fmap_cons. simpl.
  apply NoDup_cons. split.
  - rewrite elem_of_cons. intros [H | H]; [ discriminate | ].
    apply copy_loop_locs in H as (i & f & H & _). discriminate.
  - apply NoDup_cons. split; [ | apply copy_loop_NoDup ].
    intros H. apply copy_loop_locs in H as (i & f & H & _). discriminate.
Qed.

(** C1, as the code has it.  A publish is a run of plain stores with no
    version marker: [frame_number], then [num_detections], then the entries.
    A reader that looks after [k] of them finds in every scalar of the
    record the previous value or the new one; it finds the previous record
    before the first store and the new record after the last; after the two
    header stores it finds the new [frame_number] and the new count next to
    entries that are all still the previous ones. *)
Theorem publish_observed_scalarwise sd frameCount indices rects confidences
    (k : nat) (l : loc) :
  let stores := publish_stores frameCount indices rects confidences in
  let new := publish sd frameCount indices rects confidences in
  (read (observe sd stores k) l = read sd l \/
   read (observe sd stores k) l = read new l) /\
  observe sd stores 0 = sd /\
  observe sd stores (length stores) = new /\
  frame_number (observe sd stores 2) = frameCount /\
  num_detections (observe sd stores 2) = capped indices /\
  boxes (observe sd stores 2) = boxes sd.
Proof.
  intros stores new. split; [ | split; [ | split ] ].
  - apply observe_mix, publish_stores_NoDup.
  - reflexivity.
  - unfold observe. rewrite firstn_all. reflexivity.
  - split; [ | split ]; reflexivity.
Qed.

(** C1 fails on the code: publishing frame 1 with one detection into the
    zeroed region, a reader that looks after the second store finds a record
    that is neither the zeroed one nor the new one; it announces one
    detection, and entry 0 is not the one of the new record. *)
Lemma publish_torn_read :
  let rects := [mkRect 10 20 30 40] in
  let confidences := [9 # 10]%Q in
  let stores := publish_stores 1 [0%nat] rects confidences in
  let new := publish zeroed 1 [0%nat] rects confidences in
  let seen := observe zeroed stores 2 in
  ~ (seen = zeroed \/ seen = new) /\
  num_detections seen = 1 /\
  num_detections new = 1 /\
  boxes seen !! 0%nat = Some zero_box /\
  boxes new !! 0%nat = Some (mkBBox 10 20 30 40 (9 # 10)).
Proof.
  split; [ | repeat split ].
  intros [H | H].
  - apply (f_equal frame_number) in H. discriminate H.
  - apply (f_equal (fun sd => box_x <$> boxes sd !! 0%nat)) in H.
    vm_compute in H. discriminate H.
Qed.

(** ** The entries a publish leaves alone *)

Lemma stream_cons fmul forward frame rest frameCount :
  stream fmul forward (frame :: rest) frameCount =
  match forward frame with
  | None => ([], None)
  | Some outs =>
      (map Ev_store (frame_stores fmul frame outs (wrap32 (frameCount + 1)))
         ++ fst (stream fmul forward rest (wrap32 (frameCount + 1))),
       snd (stream fmul forward rest (wrap32 (frameCount + 1))))
  end.
Proof.
  simpl. destruct (forward frame) as [outs | ]; [ | reflexivity ].
  destruct (stream fmul forward rest (wrap32 (frameCount + 1))).
  reflexivity.
Qed.

Lemma stream_no_memset fmul forward frames : forall frameCount,
  Forall (fun e => e <> Ev_memset) (fst (stream fmul forward frames frameCount)).
Proof.
  induction frames as [ | frame rest IH ]; intros frameCount.
  - constructor.
  - rewrite stream_cons.
    destruct (forward frame) as [outs | ]; [ | constructor ].
    cbn [fst]. apply Forall_app. split; [ | apply IH ].
    apply Forall_forall. intros e He.
    apply list_elem_of_fmap_1 in He as (s & -> & _). discriminate.
Qed.

Lemma run_segment_app g evs1 evs2 :
  run_segment g (evs1 ++ evs2) = run_segment (run_segment g evs1) evs2.
Proof. apply fold_left_app. Qed.

Lemma run_init_events g : run_segment g init_events = mkSegment true true zeroed.
Proof.
  destruct g as [ex att d]. unfold init_events, run_segment. simpl.
  destruct ex; reflexivity.
Qed.

(** C10.  A publish overwrites the entries below the count it stores and no
    other: an entry at or past the count holds after the publish what it
    held before, the values of an earlier frame or the zeros of the
    [memset].  The region is all zeros when the loop starts, and the loop
    never zeroes it again. *)
Theorem publish_keeps_stale_entries :
  (forall sd frameCount indices rects confidences (i : nat),
     let new := publish sd frameCount indices rects confidences in
     boxes new !! i =
     if (i <? Z.to_nat (num_detections new))%nat
     then (fun _ => published_box indices rects confidences i) <$> boxes sd !! i
     else boxes sd !! i) /\
  (forall fmul forward frames frameCount,
     Forall (fun e => e <> Ev_memset)
       (fst (stream fmul forward frames frameCount))) /\
  (forall g, seg_data (run_segment g init_events) = zeroed) /\
  boxes zeroed = replicate 50 zero_box.
Proof.
  split; [ | split; [ | split ] ].
  - intros sd frameCount indices rects confidences i new. subst new.
    destruct (publish_header sd frameCount indices rects confidences)
      as (_ & -> & _).
    apply publish_boxes.
  - intros. apply stream_no_memset.
  - intros g. rewrite run_init_events. reflexivity.
  - reflexivity.
Qed.

(** A frame with two detections followed by a frame with one: entry 1 still
    holds the second detection of the earlier frame. *)
Example stale_entry_after_smaller_frame :
  let rects1 := [mkRect 0 0 10 10; mkRect 50 50 10 10] in
  let sd1 := publish zeroed 1 [0%nat; 1%nat] rects1 [9 # 10; 8 # 10]%Q in
  let sd2 := publish sd1 2 [0%nat] [mkRect 5 5 7 7] [6 # 10]%Q in
  num_detections sd2 = 1 /\
  boxes sd2 !! 0%nat = Some (mkBBox 5 5 7 7 (6 # 10)) /\
  boxes sd2 !! 1%nat = Some (mkBBox 50 50 10 10 (8 # 10)) /\
  boxes sd2 !! 2%nat = Some zero_box.
Proof. repeat split. Qed.

(** ** The loop and [main] as event lists *)

Lemma wrap32_small z : - 2 ^ 31 <= z < 2 ^ 31 -> wrap32 z = z.
Proof.
  intros H. unfold wrap32. rewrite Z.mod_small; lia.
Qed.

Lemma stream_app fmul forward pre : forall rest frameCount,
  stream fmul forward (pre ++ rest) frameCount =
  match snd (stream fmul forward pre frameCount) with
  | Some frameCount' =>
      (fst (stream fmul forward pre frameCount)
         ++ fst (stream fmul forward rest frameCount'),
       snd (stream fmul forward rest frameCount'))
  | None => stream fmul forward pre frameCount
  end.
Proof.
  induction pre as [ | frame pre IH ]; intros rest frameCount.
  - simpl. destruct (stream fmul forward rest frameCount). reflexivity.
  - rewrite <- app_comm_cons, !stream_cons.
    destruct (forward frame) as [outs | ]; [ | reflexivity ].
    rewrite IH. cbn [fst snd].
    destruct (snd (stream fmul forward pre (wrap32 (frameCount + 1)))) eqn:E;
      cbn [fst snd]; [ rewrite app_assoc | rewrite E ]; reflexivity.
Qed.

Lemma stream_all_succeed fmul forward frames : forall frameCount,
  Forall (fun frame => is_Some (forward frame)) frames <->
  is_Some (snd (stream fmul forward frames frameCount)).
Proof.
  induction frames as [ | frame rest IH ]; intros frameCount.
  - simpl. split; [ eauto | constructor ].
  - rewrite stream_cons, Forall_cons.
    destruct (forward frame) as [outs | ]; cbn [snd].
    + rewrite <- IH. split; [ tauto | ]. split; [ eauto | assumption ].
    + split; [ intros [[? ?] _]; discriminate | intros [? ?]; discriminate ].
Qed.

Lemma main_starts fmul forward env :
  starts env ->
  main fmul forward env =
  match snd (stream fmul forward (video env) 0) with
  | None => (init_events ++ fst (stream fmul forward (video env) 0), Terminated)
  | Some _ =>
      (init_events ++ fst (stream fmul forward (video env) 0) ++ final_events,
       Returned 0)
  end.
Proof.
  intros (Hv & Hg & Ha). unfold main. rewrite Hv, Hg, Ha. simpl.
  destruct (stream fmul forward (video env) 0) as [evs [r | ]]; reflexivity.
Qed.

Lemma main_returned_0 fmul forward env :
  snd (main fmul forward env) = Returned 0 ->
  starts env /\
  fst (main fmul forward env) =
  init_events ++ fst (stream fmul forward (video env) 0) ++ final_events.
Proof.
  unfold main, starts.
  destruct (video_opens env); [ | discriminate ].
  destruct (shmget_succeeds env); [ | discriminate ].
  destruct (shmat_succeeds env); [ | discriminate ].
  simpl. destruct (stream fmul forward (video env) 0) as [evs [r | ]];
    [ | discriminate ].
  intros _. auto.
Qed.

(** ** Frame numbers *)

Lemma published_app evs1 evs2 :
  published_frame_numbers (evs1 ++ evs2) =
  published_frame_numbers evs1 ++ published_frame_numbers evs2.
Proof. apply flat_map_app. Qed.

Lemma copy_loop_published indices rects confidences n :
  published_frame_numbers (map Ev_store (copy_loop indices rects confidences n)) = [].
Proof.
  induction n as [ | n IH ]; [ reflexivity | ].
  rewrite copy_loop_S, map_app, published_app, IH. reflexivity.
Qed.

Lemma frame_stores_published fmul frame outs frameCount :
  published_frame_numbers (map Ev_store (frame_stores fmul frame outs frameCount))
  = [frameCount].
Proof.
  unfold frame_stores, publish_stores. rewrite !map_cons.
  change (published_frame_numbers (?a :: ?b :: ?l))
    with (published_frame_numbers [a; b] ++ published_frame_numbers l).
  rewrite copy_loop_published. reflexivity.
Qed.

Lemma stream_published fmul forward frames : forall frameCount,
  0 <= frameCount ->
  frameCount + Z.of_nat (length frames) <= INT_MAX ->
  exists m : nat,
    (m <= length frames)%nat /\
    published_frame_numbers (fst (stream fmul forward frames frameCount)) =
      (fun i => frameCount + Z.of_nat i) <$> seq 1 m /\
    (is_Some (snd (stream fmul forward frames frameCount)) -> m = length frames).
Proof.
  unfold INT_MAX.
  induction frames as [ | frame rest IH ]; intros frameCount H0 Hmax.
  - exists 0%nat. simpl. auto.
  - rewrite stream_cons. simpl length in *.
    destruct (forward frame) as [outs | ].
    + rewrite wrap32_small by lia.
      destruct (IH (frameCount + 1)) as (m & Hm & Hpub & Hall); [ lia | lia | ].
      exists (S m). cbn [fst snd]. split; [ lia | split ].
      * rewrite published_app, frame_stores_published, Hpub.
        change (seq 1 (S m)) with (1%nat :: seq 2 m).
        rewrite fmap_cons, <- (fmap_S_seq 1 m), <- list_fmap_compose.
        simpl app. f_equal.
        apply list_fmap_ext. intros _ i _. simpl. lia.
      * intros Hs. rewrite (Hall Hs). reflexivity.
    + exists 0%nat. cbn [fst snd]. split; [ lia | split; [ reflexivity | ] ].
      intros [? ?]. discriminate.
Qed.

Lemma starts_bools env :
  starts env <->
  video_opens env && shmget_succeeds env && shmat_succeeds env = true.
Proof.
  unfold starts.
  destruct (video_opens env), (shmget_succeeds env), (shmat_succeeds env);
    simpl; intuition congruence.
Qed.

(** The loop publishes one frame number for each frame it gets through,
    counting up from [frameCount]. *)
Lemma stream_published_exact fmul forward frames : forall frameCount,
  0 <= frameCount ->
  frameCount + Z.of_nat (length frames) <= INT_MAX ->
  published_frame_numbers (fst (stream fmul forward frames frameCount)) =
  (fun i => frameCount + Z.of_nat i)
    <$> seq 1 (frames_processed forward frames).
Proof.
  unfold INT_MAX.
  induction frames as [ | frame rest IH ]; intros frameCount H0 Hmax;
    [ reflexivity | ].
  rewrite stream_cons. simpl length in Hmax. simpl frames_processed.
  destruct (forward frame) as [outs | ]; [ | reflexivity ].
  rewrite wrap32_small by lia. cbn [fst].
  rewrite published_app, frame_stores_published, IH by lia.
  change (seq 1 (S ?m)) with (1%nat :: seq 2 m).
  rewrite fmap_cons, <- (fmap_S_seq 1), <- list_fmap_compose.
  simpl app. f_equal.
  apply list_fmap_ext. intros _ i _. simpl. lia.
Qed.

Lemma frames_processed_all forward frames :
  Forall (fun frame => is_Some (forward frame)) frames ->
  frames_processed forward frames = length frames.
Proof.
  induction 1 as [ | frame rest [outs Hf] _ IH ]; [ reflexivity | ].
  simpl. rewrite Hf, IH. reflexivity.
Qed.

(** C4.  The values of [frame_number] that a run stores are exactly
    1, 2, ..., m in this order, where m is the number of frames the loop
    gets through: the sequence starts at 1, grows by exactly 1 per frame,
    and repeats or skips nothing.  When the start-up succeeds and the
    inference succeeds on every frame, m is the number of frames of the
    video; a run whose start-up fails stores none.  ([frameCount] is an
    [int]: the video has at most [INT_MAX] frames.) *)
Theorem frame_numbers_count_up fmul forward env :
  Z.of_nat (length (video env)) <= INT_MAX ->
  published_frame_numbers (fst (main fmul forward env)) =
    (if video_opens env && shmget_succeeds env && shmat_succeeds env
     then Z.of_nat <$> seq 1 (frames_processed forward (video env))
     else []) /\
  (frames_processed forward (video env) <= length (video env))%nat /\
  (starts env ->
   Forall (fun frame => is_Some (forward frame)) (video env) ->
   published_frame_numbers (fst (main fmul forward env)) =
     Z.of_nat <$> seq 1 (length (video env))).
Proof.
  intros Hmax.
  assert (Hpub : published_frame_numbers
                   (fst (stream fmul forward (video env) 0)) =
                 Z.of_nat <$> seq 1 (frames_processed forward (video env))).
  { rewrite stream_published_exact by lia.
    apply list_fmap_ext. intros _ i _. lia. }
  assert (Hle : (frames_processed forward (video env) <= length (video env))%nat).
  { clear. induction (video env) as [ | frame rest IH ]; simpl; [ lia | ].
    destruct (forward frame); lia. }
  assert (Hmain : published_frame_numbers (fst (main fmul forward env)) =
            (if video_opens env && shmget_succeeds env && shmat_succeeds env
             then Z.of_nat <$> seq 1 (frames_processed forward (video env))
             else [])).
  { unfold main.
    destruct (video_opens env); [ | reflexivity ].
    destruct (shmget_succeeds env); [ | reflexivity ].
    destruct (shmat_succeeds env); simpl negb; cbv iota; [ | reflexivity ].
    simpl andb. cbv iota.
    destruct (stream fmul forward (video env) 0) as [evs [r | ]];
      cbn [fst] in *; rewrite !published_app, Hpub; simpl;
      rewrite ?app_nil_r; reflexivity. }
  split; [ exact Hmain | split; [ exact Hle | ] ].
  intros Hs Hall. rewrite Hmain.
  apply starts_bools in Hs. rewrite Hs.
  rewrite (frames_processed_all forward (video env) Hall). reflexivity.
Qed.

Lemma frame_numbers_count_up_witness :
  let env := demo_env [good_frame; good_frame; good_frame] in
  Z.of_nat (length (video env)) <= INT_MAX /\
  starts env /\
  Forall (fun frame => is_Some (demo_forward frame)) (video env) /\
  published_frame_numbers (fst (main Qmult demo_forward env)) = [1; 2; 3].
Proof.
  intros env.
  assert (H : Z.of_nat (length (video env)) <= INT_MAX)
    by (unfold INT_MAX; simpl; lia).
  assert (Hs : starts env) by (repeat split).
  assert (Hall : Forall (fun frame => is_Some (demo_forward frame)) (video env))
    by (repeat constructor; eexists; reflexivity).
  split; [ exact H | split; [ exact Hs | split; [ exact Hall | ] ] ].
  destruct (frame_numbers_count_up Qmult demo_forward env H) as (_ & _ & Hpub).
  rewrite (Hpub Hs Hall). reflexivity.
Defined.

Example three_frames_numbered :
  published_frame_numbers
    (fst (main Qmult demo_forward
            (demo_env [good_frame; good_frame; good_frame])))
  = [1; 2; 3].
Proof. vm_compute. reflexivity. Qed.

(** ** The segment along a run *)

Lemma copy_loop_publish_events indices rects confidences n :
  Forall (fun e => publish_event e = true)
    (map Ev_store (copy_loop indices rects confidences n)).
Proof.
  induction n as [ | n IH ]; [ constructor | ].
  rewrite copy_loop_S, map_app. apply Forall_app. split; [ exact IH | ].
  repeat constructor.
Qed.

Lemma stream_publish_events fmul forward frames : forall frameCount,
  Forall (fun e => publish_event e = true)
    (fst (stream fmul forward frames frameCount)).
Proof.
  induction frames as [ | frame rest IH ]; intros frameCount.
  - constructor.
  - rewrite stream_cons.
    destruct (forward frame) as [outs | ]; [ | constructor ].
    cbn [fst]. apply Forall_app. split; [ | apply IH ].
    unfold frame_stores, publish_stores. rewrite !map_cons.
    repeat (constructor; [ reflexivity | ]).
    apply copy_loop_publish_events.
Qed.

(** Publishing writes to the data of an attached segment and to nothing
    else. *)
Lemma run_publish_events evs : forall g,
  Forall (fun e => publish_event e = true) evs ->
  seg_attached g = true ->
  seg_exists (run_segment g evs) = seg_exists g /\
  seg_attached (run_segment g evs) = true /\
  processing_complete (seg_data (run_segment g evs)) =
    processing_complete (seg_data g).
Proof.
  induction evs as [ | e evs IH ]; intros g Hall Hatt; [ auto | ].
  inversion Hall as [ | ? ? He Hevs ]; subst.
  change (run_segment g (e :: evs)) with (run_segment (os_step g e) evs).
  destruct (IH (os_step g e) Hevs) as (H1 & H2 & H3).
  - destruct e as [ | | | s | | ]; try discriminate. simpl. rewrite Hatt.
    reflexivity.
  - rewrite H1, H2, H3.
    destruct e as [ | | | [v | v | i f v | b] | | ]; try discriminate;
      simpl; rewrite Hatt; auto.
Qed.

Lemma publish_event_not_complete e :
  publish_event e = true -> sets_complete e = false.
Proof.
  destruct e as [ | | | [v | v | i f v | b] | | ]; try discriminate; reflexivity.
Qed.

(** The segment after a run that returns 0, from any segment before it. *)
Lemma run_returned_0 fmul forward env g :
  snd (main fmul forward env) = Returned 0 ->
  let evs := init_events ++ fst (stream fmul forward (video env) 0) in
  fst (main fmul forward env) = evs ++ final_events /\
  seg_exists (run_segment g evs) = true /\
  seg_attached (run_segment g evs) = true /\
  run_segment g (fst (main fmul forward env)) =
    mkSegment true false
      (apply_store (seg_data (run_segment g evs)) (St_processing_complete true)).
Proof.
  intros H evs. apply main_returned_0 in H as [_ Hev].
  assert (Hrun : seg_exists (run_segment g evs) = true /\
                 seg_attached (run_segment g evs) = true).
  { subst evs. rewrite run_segment_app, run_init_events.
    destruct (run_publish_events
                (fst (stream fmul forward (video env) 0))
                (mkSegment true true zeroed)) as (H1 & H2 & _);
      [ apply stream_publish_events | reflexivity | ].
    rewrite H1, H2. auto. }
  destruct Hrun as [Hex Hatt].
  split; [ | split; [ exact Hex | split; [ exact Hatt | ] ] ].
  - rewrite Hev. subst evs. rewrite app_assoc. reflexivity.
  - rewrite Hev, app_assoc. fold evs. rewrite run_segment_app.
    unfold final_events.
    change (run_segment ?h [?a; ?b]) with (os_step (os_step h a) b).
    cbn [os_step]. rewrite Hatt. cbn [seg_exists seg_data]. rewrite Hex.
    reflexivity.
Qed.

Lemma init_events_not_complete :
  Forall (fun e => sets_complete e = false) init_events.
Proof. repeat constructor. Qed.

Lemma stream_not_complete fmul forward frames frameCount :
  Forall (fun e => sets_complete e = false)
    (fst (stream fmul forward frames frameCount)).
Proof.
  eapply Forall_impl; [ apply stream_publish_events | ].
  intros e. apply publish_event_not_complete.
Qed.

(** C8.  When the source is exhausted and [main] returns 0, the store that
    sets [processing_complete] is the last write of the run: it is stored
    once, every publish comes before it, the one event after it is the
    detach, and the record the segment holds at the end is the record as
    that store left it, with the flag set. *)
Theorem completion_is_last_write fmul forward env g :
  snd (main fmul forward env) = Returned 0 ->
  exists evs,
    fst (main fmul forward env) =
      evs ++ [Ev_store (St_processing_complete true); Ev_shmdt] /\
    Forall (fun e => sets_complete e = false) evs /\
    writes Ev_shmdt = false /\
    processing_complete (seg_data (run_segment g (fst (main fmul forward env))))
      = true /\
    seg_data (run_segment g (fst (main fmul forward env))) =
      seg_data (run_segment g (evs ++ [Ev_store (St_processing_complete true)])).
Proof.
  intros H.
  destruct (run_returned_0 fmul forward env g H) as (Hev & Hex & Hatt & Hrun).
  exists (init_events ++ fst (stream fmul forward (video env) 0)).
  split; [ exact Hev | split; [ | split; [ reflexivity | split ] ] ].
  - apply Forall_app. split;
      [ apply init_events_not_complete | apply stream_not_complete ].
  - rewrite Hrun. reflexivity.
  - rewrite Hrun.
    rewrite (run_segment_app g (init_events ++ _)
               [Ev_store (St_processing_complete true)]).
    change (run_segment ?h [?a]) with (os_step h a).
    cbn [os_step]. rewrite Hatt. reflexivity.
Qed.

Lemma completion_is_last_write_witness :
  snd (main Qmult demo_forward (demo_env [good_frame; good_frame])) = Returned 0 /\
  exists evs,
    fst (main Qmult demo_forward (demo_env [good_frame; good_frame])) =
      evs ++ [Ev_store (St_processing_complete true); Ev_shmdt].
Proof.
  split; [ vm_compute; reflexivity | ].
  destruct (completion_is_last_write Qmult demo_forward
              (demo_env [good_frame; good_frame])
              (mkSegment false false zeroed)) as (evs & Hev & _).
  - vm_compute. reflexivity.
  - exists evs. exact Hev.
Defined.

(** ** Teardown *)

Lemma publish_event_not_rmid e : publish_event e = true -> e <> Ev_shmctl_rmid.
Proof. intros H ->. discriminate. Qed.

Lemma main_no_rmid fmul forward env :
  Forall (fun e => e <> Ev_shmctl_rmid) (fst (main fmul forward env)).
Proof.
  assert (Hs : Forall (fun e => e <> Ev_shmctl_rmid)
                 (fst (stream fmul forward (video env) 0))).
  { eapply Forall_impl; [ apply stream_publish_events | ].
    intros e. apply publish_event_not_rmid. }
  unfold main.
  destruct (video_opens env); [ | constructor ].
  destruct (shmget_succeeds env); [ | constructor ].
  destruct (shmat_succeeds env); simpl negb; cbv iota.
  2:{ repeat constructor. discriminate. }
  destruct (stream fmul forward (video env) 0) as [evs [r | ]]; cbn [fst] in *.
  - repeat (constructor; [ discriminate | ]).
    apply Forall_app. split; [ exact Hs | ].
    repeat (constructor; [ discriminate | ]). constructor.
  - repeat (constructor; [ discriminate | ]). exact Hs.
Qed.

Lemma run_keeps_segment evs : forall g,
  Forall (fun e => e <> Ev_shmctl_rmid) evs ->
  seg_exists g = true ->
  seg_exists (run_segment g evs) = true.
Proof.
  induction evs as [ | e evs IH ]; intros g Hall Hex; [ exact Hex | ].
  inversion Hall as [ | ? ? He Hevs ]; subst.
  change (run_segment g (e :: evs)) with (run_segment (os_step g e) evs).
  apply IH; [ exact Hevs | ].
  destruct e; simpl; try rewrite Hex; try reflexivity; try congruence;
    destruct (seg_attached g); simpl; congruence.
Qed.

(** C9.  No run of the producer calls [shmctl(IPC_RMID)]: a segment that
    exists when the producer starts exists when it stops.  A run that returns
    0 ends with [shmdt]: after it the segment exists, the producer has no
    mapping of it, and it holds the last record with the completion flag
    set, for a consumer to read. *)
Theorem producer_detaches_and_keeps_segment fmul forward env g :
  let evs := fst (main fmul forward env) in
  Forall (fun e => e <> Ev_shmctl_rmid) evs /\
  (seg_exists g = true -> seg_exists (run_segment g evs) = true) /\
  (snd (main fmul forward env) = Returned 0 ->
   last evs = Some Ev_shmdt /\
   seg_exists (run_segment g evs) = true /\
   seg_attached (run_segment g evs) = false /\
   seg_data (run_segment g evs) = seg_data (run_segment g (removelast evs)) /\
   processing_complete (seg_data (run_segment g evs)) = true).
Proof.
  intros evs. split; [ apply main_no_rmid | split ].
  - apply run_keeps_segment, main_no_rmid.
  - intros H.
    destruct (run_returned_0 fmul forward env g H) as (Hev & Hex & Hatt & Hrun).
    subst evs. rewrite Hrun. cbn [seg_exists seg_attached seg_data].
    rewrite Hev. unfold final_events.
    split; [ | split; [ reflexivity | split; [ reflexivity | split ] ] ].
    + rewrite last_app. reflexivity.
    + change (?l ++ [?a; ?b]) with (l ++ [a] ++ [b]).
      rewrite (app_assoc _ [_] [_]), removelast_last.
      rewrite (run_segment_app g (init_events ++ _)
                 [Ev_store (St_processing_complete true)]).
      change (run_segment ?h [?a]) with (os_step h a).
      cbn [os_step]. rewrite Hatt. reflexivity.
    + reflexivity.
Qed.

Lemma producer_detaches_and_keeps_segment_witness :
  let env := demo_env [good_frame; good_frame] in
  let g := mkSegment false false zeroed in
  snd (main Qmult demo_forward env) = Returned 0 /\
  seg_exists (run_segment g (fst (main Qmult demo_forward env))) = true /\
  seg_attached (run_segment g (fst (main Qmult demo_forward env))) = false.
Proof.
  intros env g.
  assert (H : snd (main Qmult demo_forward env) = Returned 0)
    by (vm_compute; reflexivity).
  split; [ exact H | ].
  destruct (producer_detaches_and_keeps_segment Qmult demo_forward env g)
    as (_ & _ & Hret).
  destruct (Hret H) as (_ & Hex & Hatt & _). split; assumption.
Defined.

(** ** Failure of the inference on one frame *)

Lemma first_failure (forward : Frame -> option (list Mat)) frames :
  Forall (fun frame => is_Some (forward frame)) frames \/
  exists pre bad post,
    frames = pre ++ bad :: post /\
    Forall (fun frame => is_Some (forward frame)) pre /\
    forward bad = None.
Proof.
  induction frames as [ | frame rest IH ]; [ left; constructor | ].
  destruct (forward frame) as [outs | ] eqn:E.
  - destruct IH as [IH | (pre & bad & post & -> & Hpre & Hbad)].
    + left. constructor; [ rewrite E; eauto | exact IH ].
    + right. exists (frame :: pre), bad, post.
      split; [ reflexivity | split; [ | exact Hbad ] ].
      constructor; [ rewrite E; eauto | exact Hpre ].
  - right. exists [], frame, rest. split; [ reflexivity | split; [ constructor | exact E ] ].
Qed.

Lemma stream_stops_at_failure fmul forward pre bad post frameCount :
  Forall (fun frame => is_Some (forward frame)) pre ->
  forward bad = None ->
  stream fmul forward (pre ++ bad :: post) frameCount =
  (fst (stream fmul forward pre frameCount), None).
Proof.
  intros Hpre Hbad. rewrite stream_app.
  apply (stream_all_succeed fmul forward pre frameCount) in Hpre as [r Hr].
  rewrite Hr, stream_cons, Hbad. cbn [fst snd]. rewrite app_nil_r.
  reflexivity.
Qed.

(** C3, as the code has it.  The loop has no handler.  Either the inference
    succeeds on every frame, and then every frame is published and [main]
    returns 0; or it throws on some frame, and then the run ends there: the
    frames before the first failing one have been published, neither that
    frame nor any frame after it is, and the completion flag is never set. *)
Theorem inference_failure_ends_run fmul forward env :
  starts env ->
  (Forall (fun frame => is_Some (forward frame)) (video env) /\
   main fmul forward env =
     (init_events ++ fst (stream fmul forward (video env) 0) ++ final_events,
      Returned 0)) \/
  (exists pre bad post,
     video env = pre ++ bad :: post /\
     Forall (fun frame => is_Some (forward frame)) pre /\
     forward bad = None /\
     main fmul forward env =
       (init_events ++ fst (stream fmul forward pre 0), Terminated) /\
     Forall (fun e => sets_complete e = false) (fst (main fmul forward env))).
Proof.
  intros Hstart. rewrite (main_starts fmul forward env Hstart).
  destruct (first_failure forward (video env))
    as [Hall | (pre & bad & post & Hv & Hpre & Hbad)].
  - left. split; [ exact Hall | ].
    apply (stream_all_succeed fmul forward (video env) 0) in Hall as [r Hr].
    rewrite Hr. reflexivity.
  - right. exists pre, bad, post.
    rewrite Hv, (stream_stops_at_failure fmul forward pre bad post 0 Hpre Hbad).
    cbn [fst snd].
    split; [ reflexivity | split; [ exact Hpre | split; [ exact Hbad | ] ] ].
    split; [ reflexivity | ].
    apply Forall_app. split;
      [ apply init_events_not_complete | apply stream_not_complete ].
Qed.

Lemma inference_failure_ends_run_witness :
  starts (demo_env [good_frame; bad_frame; good_frame]) /\
  main Qmult demo_forward (demo_env [good_frame; bad_frame; good_frame]) =
    (init_events ++ fst (stream Qmult demo_forward [good_frame] 0), Terminated).
Proof.
  assert (Hs : starts (demo_env [good_frame; bad_frame; good_frame]))
    by (repeat split).
  split; [ exact Hs | ].
  destruct (inference_failure_ends_run Qmult demo_forward _ Hs)
    as [[_ H] | _].
  - vm_compute in H. discriminate H.
  - vm_compute. reflexivity.
Defined.

(** C3 fails on the code: the inference throws on the first of two frames;
    the run ends by the uncaught exception, the second frame, on which the
    inference would succeed, is never published, and the region is left as
    the [memset] made it. *)
Lemma failed_frame_aborts_stream :
  let env := demo_env [bad_frame; good_frame] in
  let run := main Qmult demo_forward env in
  demo_forward bad_frame = None /\
  is_Some (demo_forward good_frame) /\
  snd run = Terminated /\
  fst run = init_events /\
  published_frame_numbers (fst run) = [] /\
  seg_data (run_segment (mkSegment false false zeroed) (fst run)) = zeroed.
Proof.
  repeat split. vm_compute. eauto.
Qed.

(** ** Lists sorted by a relation *)

Section SortedLists.
Context {A B : Type}.

Lemma filter_sublist (f : A -> bool) (l : list A) :
  List.filter f l `sublist_of` l.
Proof.
  induction l as [ | x l IH ]; simpl; [ constructor | ].
  destruct (f x); [ apply sublist_skip | apply sublist_cons ]; exact IH.
Qed.

Lemma Forall_sublist_of (P : A -> Prop) (l1 l2 : list A) :
  l1 `sublist_of` l2 -> Forall P l2 -> Forall P l1.
Proof.
  intros Hsub Hall. apply Forall_forall. intros x Hx.
  rewrite Forall_forall in Hall. apply Hall.
  exact (elem_of_sublist _ _ _ Hx Hsub).
Qed.

Lemma StronglySorted_sublist_of (R : A -> A -> Prop) (l1 l2 : list A) :
  l1 `sublist_of` l2 -> StronglySorted R l2 -> StronglySorted R l1.
Proof.
  induction 1 as [ | x l1 l2 Hsub IH | x l1 l2 Hsub IH ]; intros Hs.
  - constructor.
  - apply StronglySorted_inv in Hs as [Hs Hx]. constructor; [ auto | ].
    exact (Forall_sublist_of _ _ _ Hsub Hx).
  - apply StronglySorted_inv in Hs as [Hs _]. auto.
Qed.

(** The order may be read through a weaker relation, as long as the two
    agree on the members of the list. *)
Lemma StronglySorted_weaken (R R' : A -> A -> Prop) (P : A -> Prop)
    (l : list A) :
  (forall a b, P a -> P b -> R a b -> R' a b) ->
  Forall P l -> StronglySorted R l -> StronglySorted R' l.
Proof.
  intros Himp HP Hs. induction Hs as [ | a l Hs IH Ha ]; [ constructor | ].
  apply Forall_cons in HP as [Pa Pl].
  constructor; [ exact (IH Pl) | ].
  rewrite Forall_forall in *. intros b Hb. apply Himp; auto.
Qed.

Lemma StronglySorted_fmap (f : A -> B) (R : B -> B -> Prop) (l : list A) :
  StronglySorted (fun a b => R (f a) (f b)) l -> StronglySorted R (f <$> l).
Proof.
  induction 1 as [ | a l Hs IH Ha ]; [ constructor | ].
  rewrite fmap_cons. constructor; [ exact IH | ].
  apply Forall_fmap. exact Ha.
Qed.

Lemma StronglySorted_NoDup (R : A -> A -> Prop) (l : list A) :
  (forall a, ~ R a a) -> StronglySorted R l -> NoDup l.
Proof.
  intros Hirr. induction 1 as [ | a l Hs IH Ha ]; [ constructor | ].
  apply NoDup_cons. split; [ | exact IH ].
  intros Hin. rewrite Forall_forall in Ha. exact (Hirr a (Ha a Hin)).
Qed.

End SortedLists.

(** ** The suppressor *)

Lemma zip_seq_spec (l : list Q) : forall k : nat,
  Forall (fun p : score_index =>
            (k <= snd p < k + length l)%nat /\
            nth (snd p - k) l 0%Q = fst p)
    (zip l (seq k (length l))) /\
  StronglySorted (fun a b : score_index => (snd a < snd b)%nat)
    (zip l (seq k (length l))).
Proof.
  induction l as [ | x l IH ]; intros k; [ split; constructor | ].
  destruct (IH (S k)) as [Hall Hs]. simpl. split.
  - constructor.
    + simpl. split; [ lia | ]. rewrite Nat.sub_diag. reflexivity.
    + eapply Forall_impl; [ exact Hall | ]. intros [s i]. simpl.
      intros [Hi Hn]. split; [ lia | ].
      replace (i - k)%nat with (S (i - S k)) by lia. exact Hn.
  - constructor; [ exact Hs | ].
    eapply Forall_impl; [ exact Hall | ]. intros [s i]. simpl. lia.
Qed.

Lemma score_indices_scored scores score_threshold :
  Forall (scored scores score_threshold) (score_indices scores score_threshold).
Proof.
  unfold score_indices. apply Forall_forall. intros p Hp.
  apply list_elem_of_In, filter_In in Hp as [Hin Hgt].
  destruct (zip_seq_spec scores 0) as [Hall _].
  rewrite Forall_forall in Hall.
  destruct (Hall p (proj2 (list_elem_of_In _ _) Hin)) as [Hi Hn].
  rewrite Nat.sub_0_r in Hn. split; [ lia | split; [ exact Hn | ] ].
  apply Qgtb_lt, Hgt.
Qed.

Lemma score_indices_ascending scores score_threshold :
  StronglySorted (fun a b : score_index => (snd a < snd b)%nat)
    (score_indices scores score_threshold).
Proof.
  eapply StronglySorted_sublist_of; [ apply filter_sublist | ].
  apply zip_seq_spec.
Qed.

Lemma score_indices_length scores score_threshold :
  (length (score_indices scores score_threshold) <= length scores)%nat.
Proof.
  unfold score_indices.
  etransitivity; [ apply List.filter_length_le | ].
  rewrite length_zip, length_seq. lia.
Qed.

Lemma insert_desc_perm p l : insert_desc p l ≡ₚ p :: l.
Proof.
  induction l as [ | q l IH ]; simpl; [ reflexivity | ].
  destruct (Qgtb (fst q) (fst p)); [ | reflexivity ].
  rewrite IH. apply Permutation_swap.
Qed.

Lemma ranks_before_le a b : ranks_before a b -> (fst b <= fst a)%Q.
Proof. intros [H | [H _]]; lra. Qed.

Lemma insert_desc_sorted p l :
  StronglySorted ranks_before l ->
  Forall (fun q => (snd p < snd q)%nat) l ->
  StronglySorted ranks_before (insert_desc p l).
Proof.
  induction 1 as [ | q l Hs IH Hq ]; intros Hp; simpl.
  - repeat constructor.
  - apply Forall_cons in Hp as [Hpq Hpl].
    destruct (Qgtb (fst q) (fst p)) eqn:E.
    + apply Qgtb_lt in E. constructor; [ exact (IH Hpl) | ].
      rewrite insert_desc_perm. constructor; [ left; exact E | exact Hq ].
    + apply Qgtb_le in E. constructor; [ constructor; assumption | ].
      assert (Hall : Forall (fun x => (fst x <= fst p)%Q /\ (snd p < snd x)%nat)
                       (q :: l)).
      { constructor; [ split; assumption | ].
        rewrite Forall_forall in *. intros x Hx. split; [ | auto ].
        specialize (Hq x Hx). apply ranks_before_le in Hq. lra. }
      eapply Forall_impl; [ exact Hall | ]. intros x [Hle Hlt].
      unfold ranks_before.
      destruct (Qlt_le_dec (fst x) (fst p)) as [Hlt' | Hge]; [ left; exact Hlt' | ].
      right. split; [ lra | exact Hlt ].
Qed.

Lemma sort_desc_perm l : sort_desc l ≡ₚ l.
Proof.
  induction l as [ | p l IH ]; simpl; [ reflexivity | ].
  rewrite insert_desc_perm, IH. reflexivity.
Qed.

Lemma sort_desc_sorted l :
  StronglySorted (fun a b : score_index => (snd a < snd b)%nat) l ->
  StronglySorted ranks_before (sort_desc l).
Proof.
  induction 1 as [ | p l Hs IH Hp ]; simpl; [ constructor | ].
  apply insert_desc_sorted; [ exact IH | ].
  rewrite sort_desc_perm. exact Hp.
Qed.

Lemma suppress_sublist nms_threshold bboxes l :
  suppress nms_threshold bboxes l `sublist_of` l.
Proof.
  funelim (suppress nms_threshold bboxes l); simp suppress; [ constructor | ].
  apply sublist_skip. etransitivity; [ eassumption | apply filter_sublist ].
Qed.

Lemma suppress_compatible nms_threshold bboxes l :
  StronglySorted (fun a b => compatible nms_threshold bboxes a b = true)
    (suppress nms_threshold bboxes l).
Proof.
  funelim (suppress nms_threshold bboxes l); simp suppress; constructor.
  - assumption.
  - apply Forall_forall. intros d Hd.
    eapply elem_of_sublist in Hd; [ | apply suppress_sublist ].
    apply list_elem_of_In, filter_In in Hd as [_ Hd]. exact Hd.
Qed.

Lemma inter_area_sym a b : inter_area a b = inter_area b a.
Proof.
  unfold inter_area.
  rewrite (Z.min_comm (rect_x a + _)), (Z.max_comm (rect_x a)),
    (Z.min_comm (rect_y a + _)), (Z.max_comm (rect_y a)).
  reflexivity.
Qed.

Lemma IoU_sym a b : IoU a b = IoU b a.
Proof.
  unfold IoU. rewrite (inter_area_sym a b), (Z.add_comm (rect_area a)).
  reflexivity.
Qed.

(** The survivors of the suppressor, with their scores. *)
Lemma survivors_spec bboxes scores score_threshold nms_threshold :
  let out := suppress nms_threshold bboxes
               (sort_desc (score_indices scores score_threshold)) in
  Forall (scored scores score_threshold) out /\
  StronglySorted ranks_before out /\
  StronglySorted (fun a b => compatible nms_threshold bboxes a b = true) out /\
  (length out <= length scores)%nat.
Proof.
  intros out.
  assert (Hsub : out `sublist_of` sort_desc (score_indices scores score_threshold))
    by apply suppress_sublist.
  split; [ | split; [ | split ] ].
  - eapply Forall_sublist_of; [ exact Hsub | ].
    rewrite sort_desc_perm. apply score_indices_scored.
  - eapply StronglySorted_sublist_of; [ exact Hsub | ].
    apply sort_desc_sorted, score_indices_ascending.
  - apply suppress_compatible.
  - etransitivity; [ exact (sublist_length _ _ Hsub) | ].
    rewrite sort_desc_perm. apply score_indices_length.
Qed.

Lemma precedes_irrefl scores i : ~ precedes scores i i.
Proof.
  unfold precedes, ranks_before. simpl. intros [H | [_ H]]; [ | lia ].
  exact (Qlt_irrefl _ H).
Qed.

Lemma NMSBoxes_precedes bboxes scores score_threshold nms_threshold :
  StronglySorted (precedes scores)
    (NMSBoxes bboxes scores score_threshold nms_threshold).
Proof.
  destruct (survivors_spec bboxes scores score_threshold nms_threshold)
    as (Hsc & Hs & _).
  apply (StronglySorted_fmap snd).
  eapply StronglySorted_weaken; [ | exact Hsc | exact Hs ].
  intros [s i] [t j] (_ & Hi & _) (_ & Hj & _). simpl in *.
  unfold precedes. rewrite Hi, Hj. auto.
Qed.

Lemma NMSBoxes_scored bboxes scores score_threshold nms_threshold :
  Forall (fun i => (i < length scores)%nat /\
                   (score_threshold < nth i scores 0)%Q)
    (NMSBoxes bboxes scores score_threshold nms_threshold).
Proof.
  destruct (survivors_spec bboxes scores score_threshold nms_threshold)
    as (Hsc & _).
  apply Forall_fmap. eapply Forall_impl; [ exact Hsc | ].
  intros [s i] (Hi & Hn & Hs). simpl in *. rewrite Hn. auto.
Qed.

Lemma NMSBoxes_descending bboxes scores score_threshold nms_threshold :
  StronglySorted (fun i j => (nth j scores 0 <= nth i scores 0)%Q)
    (NMSBoxes bboxes scores score_threshold nms_threshold).
Proof.
  eapply (StronglySorted_weaken _ _ (fun _ => True));
    [ | | apply NMSBoxes_precedes ].
  - intros i j _ _ H. exact (ranks_before_le _ _ H).
  - apply Forall_forall. auto.
Qed.

(** C7.  The indices [NMSBoxes] returns: each is the index of a candidate
    whose score exceeds the score threshold, none occurs twice, and there are
    no more of them than candidates; they come by descending score, and of
    two with the same score the one that came first among the candidates
    comes first; the boxes of any two of them overlap by no more than the
    threshold, in either order.  [NMSBoxes] is a function of its
    arguments. *)
Theorem NMSBoxes_survivors bboxes scores score_threshold nms_threshold :
  let out := NMSBoxes bboxes scores score_threshold nms_threshold in
  Forall (fun i => (i < length scores)%nat /\
                   (score_threshold < nth i scores 0)%Q) out /\
  NoDup out /\
  (length out <= length scores)%nat /\
  StronglySorted (fun i j => (nth j scores 0 <= nth i scores 0)%Q) out /\
  StronglySorted (precedes scores) out /\
  StronglySorted (fun i j => apart nms_threshold bboxes i j /\
                             apart nms_threshold bboxes j i) out.
Proof.
  intros out.
  pose proof (NMSBoxes_precedes bboxes scores score_threshold nms_threshold)
    as Hprec.
  destruct (survivors_spec bboxes scores score_threshold nms_threshold)
    as (_ & _ & Hcomp & Hlen).
  split; [ apply NMSBoxes_scored | ].
  split; [ exact (StronglySorted_NoDup _ _ (precedes_irrefl scores) Hprec) | ].
  split; [ unfold out, NMSBoxes; rewrite length_map; exact Hlen | ].
  split; [ apply NMSBoxes_descending | split; [ exact Hprec | ] ].
  apply (StronglySorted_fmap snd).
  eapply (StronglySorted_weaken _ _ (fun _ => True)); [ | | exact Hcomp ].
  - intros a b _ _ H. unfold compatible in H. apply Qle_bool_iff in H.
    unfold apart. split; [ exact H | rewrite IoU_sym; exact H ].
  - apply Forall_forall. auto.
Qed.

(** ** The filter *)

(** A row the filter accepts: the greatest class score stands in column 0
    and exceeds the confidence threshold. *)
Lemma filter_row_spec fmul frame data c :
  c ∈ filter_row fmul frame data ->
  minMaxLoc (drop 5 data) = (cand_confidence c, 0) /\
  (confThreshold < cand_confidence c)%Q /\
  cand_class c = 0 /\
  cand_box c = decode fmul frame data.
Proof.
  unfold filter_row. destruct (minMaxLoc (drop 5 data)) as [confidence classId].
  destruct (classId =? 0) eqn:Ec; simpl; [ | intros H; inversion H ].
  destruct (Qgtb confidence confThreshold) eqn:Eq; [ | intros H; inversion H ].
  intros H. apply list_elem_of_singleton in H. subst c. simpl.
  apply Z.eqb_eq in Ec. subst classId. apply Qgtb_lt in Eq. auto.
Qed.

Lemma filter_outs_spec fmul frame outs c :
  c ∈ filter_outs fmul frame outs ->
  exists out data,
    out ∈ outs /\ data ∈ out /\
    minMaxLoc (drop 5 data) = (cand_confidence c, 0) /\
    (confThreshold < cand_confidence c)%Q /\
    cand_class c = 0 /\
    cand_box c = decode fmul frame data.
Proof.
  unfold filter_outs. intros H.
  apply list_elem_of_In, in_flat_map in H as (out & Hout & H).
  apply in_flat_map in H as (data & Hdata & H).
  exists out, data. rewrite !list_elem_of_In.
  split; [ exact Hout | split; [ exact Hdata | ] ].
  apply (filter_row_spec fmul frame), list_elem_of_In, H.
Qed.

(** After the stores of a frame, each of the first [num_detections] entries
    is the copy of a candidate of that frame. *)
Lemma published_entry fmul frame outs sd frameCount (i : nat) :
  length (boxes sd) = CAPACITY ->
  (i < Z.to_nat (num_detections (process_frame fmul sd frame outs frameCount)))%nat ->
  exists c,
    c ∈ filter_outs fmul frame outs /\
    boxes (process_frame fmul sd frame outs frameCount) !! i = Some (entry_of c).
Proof.
  intros Hlen Hi. unfold process_frame, frame_stores in *.
  set (cands := filter_outs fmul frame outs) in *.
  set (confidences := map cand_confidence cands) in *.
  set (rects := map cand_box cands) in *.
  set (indices := NMSBoxes rects confidences confThreshold nmsThreshold) in *.
  change (apply_stores sd (publish_stores frameCount indices rects confidences))
    with (publish sd frameCount indices rects confidences) in *.
  destruct (publish_header sd frameCount indices rects confidences)
    as (_ & Hn & _).
  rewrite Hn in Hi. rewrite publish_boxes.
  replace (i <? Z.to_nat (capped indices))%nat with true
    by (symmetry; apply Nat.ltb_lt; exact Hi).
  rewrite capped_nat in Hi.
  assert (Hidx : (nth i indices 0 < length confidences)%nat).
  { pose proof (NMSBoxes_scored rects confidences confThreshold nmsThreshold)
      as Hall.
    rewrite Forall_forall in Hall.
    apply (Hall (nth i indices 0%nat)), list_elem_of_In, nth_In.
    fold indices. lia. }
  unfold confidences in Hidx. rewrite length_map in Hidx.
  destruct (lookup_lt_is_Some_2 (boxes sd) i) as [b Hb];
    [ rewrite Hlen; lia | ].
  destruct (nth_error cands (nth i indices 0%nat)) as [c | ] eqn:Hc;
    [ | apply nth_error_None in Hc; lia ].
  exists c. split; [ apply list_elem_of_In; exact (nth_error_In _ _ Hc) | ].
  rewrite Hb. simpl. f_equal. unfold published_box, entry_of, rects, confidences.
  rewrite (nth_indep _ empty_rect (cand_box c)) by (rewrite length_map; lia).
  rewrite (nth_indep _ 0%Q (cand_confidence c)) by (rewrite length_map; lia).
  rewrite !map_nth, (nth_error_nth _ _ _ Hc). reflexivity.
Qed.

(** The candidate of an accepted row. *)
Lemma filter_row_accepted fmul frame data confidence :
  minMaxLoc (drop 5 data) = (confidence, 0) ->
  (confThreshold < confidence)%Q ->
  filter_row fmul frame data =
    [mkCandidate 0 confidence (decode fmul frame data)].
Proof.
  intros Hmax Hgt. unfold filter_row. rewrite Hmax. simpl.
  apply Qgtb_lt in Hgt. rewrite Hgt. reflexivity.
Qed.

(** Each published entry is the copy of the candidate of one row of the
    inference output that the filter accepted. *)
Lemma published_row fmul frame outs sd frameCount (i : nat) :
  length (boxes sd) = CAPACITY ->
  (i < Z.to_nat (num_detections (process_frame fmul sd frame outs frameCount)))%nat ->
  exists out data confidence,
    out ∈ outs /\ data ∈ out /\
    minMaxLoc (drop 5 data) = (confidence, 0) /\
    (confThreshold < confidence)%Q /\
    boxes (process_frame fmul sd frame outs frameCount) !! i =
      Some (entry_of (mkCandidate 0 confidence (decode fmul frame data))).
Proof.
  intros Hlen Hi.
  destruct (published_entry fmul frame outs sd frameCount i Hlen Hi)
    as (c & Hc & Hb).
  apply filter_outs_spec in Hc
    as (out & data & Hout & Hdata & Hmax & Hgt & Hclass & Hbox).
  exists out, data, (cand_confidence c).
  split; [ exact Hout | split; [ exact Hdata | ] ].
  split; [ exact Hmax | split; [ exact Hgt | ] ].
  rewrite Hb. destruct c as [cl co bx]. simpl in *. subst. reflexivity.
Qed.

(** C5.  Every entry below [num_detections] after the stores of a frame is
    the copy of the candidate of one row of the inference output, and that
    row passed both tests of the filter: its greatest class score stands in
    column 0, the target class, and is strictly above [confThreshold].  The
    confidence of the entry is that score.  A row that fails either test has
    no candidate, so nothing of it is published. *)
Theorem published_above_threshold fmul frame outs sd frameCount (i : nat) :
  length (boxes sd) = CAPACITY ->
  (i < Z.to_nat (num_detections (process_frame fmul sd frame outs frameCount)))%nat ->
  exists b out data,
    boxes (process_frame fmul sd frame outs frameCount) !! i = Some b /\
    out ∈ outs /\ data ∈ out /\
    minMaxLoc (drop 5 data) = (box_confidence b, 0) /\
    (confThreshold < box_confidence b)%Q /\
    filter_row fmul frame data =
      [mkCandidate 0 (box_confidence b) (decode fmul frame data)] /\
    b = entry_of (mkCandidate 0 (box_confidence b) (decode fmul frame data)).
Proof.
  intros Hlen Hi.
  destruct (published_row fmul frame outs sd frameCount i Hlen Hi)
    as (out & data & confidence & Hout & Hdata & Hmax & Hgt & Hb).
  exists (entry_of (mkCandidate 0 confidence (decode fmul frame data))),
    out, data.
  cbn [entry_of box_confidence cand_confidence].
  split; [ exact Hb | split; [ exact Hout | split; [ exact Hdata | ] ] ].
  split; [ exact Hmax | split; [ exact Hgt | split; [ | reflexivity ] ] ].
  apply filter_row_accepted; assumption.
Qed.

Lemma published_above_threshold_witness :
  length (boxes zeroed) = CAPACITY /\
  (0 < Z.to_nat (num_detections
                   (process_frame Qmult zeroed good_frame demo_outs 1)))%nat /\
  exists b,
    boxes (process_frame Qmult zeroed good_frame demo_outs 1) !! 0%nat = Some b /\
    (confThreshold < box_confidence b)%Q.
Proof.
  assert (Hlen : length (boxes zeroed) = CAPACITY) by reflexivity.
  assert (Hi : (0 < Z.to_nat (num_detections
                   (process_frame Qmult zeroed good_frame demo_outs 1)))%nat)
    by (vm_compute; lia).
  split; [ exact Hlen | split; [ exact Hi | ] ].
  destruct (published_above_threshold Qmult good_frame demo_outs zeroed 1 0
              Hlen Hi) as (b & out & data & Hb & _ & _ & _ & Hgt & _).
  exists b. split; assumption.
Defined.

(** C6, as the code has it.  The rectangle of a published entry comes from
    the accepted row it copies by [int] arithmetic.  Each product of a
    normalized output with a frame dimension is cast to [int]: cut toward
    zero when the result fits an [int] ([INT_MIN] otherwise).  The halves
    are integer quotients; [left] is the cast center-x minus half the cast
    width and [top] the cast center-y minus half the cast height, in 32-bit
    arithmetic.  The four integers are stored as [float]. *)
Theorem published_box_is_truncated fmul frame outs sd frameCount (i : nat) :
  length (boxes sd) = CAPACITY ->
  (i < Z.to_nat (num_detections (process_frame fmul sd frame outs frameCount)))%nat ->
  exists b out data,
    boxes (process_frame fmul sd frame outs frameCount) !! i = Some b /\
    out ∈ outs /\ data ∈ out /\
    filter_row fmul frame data =
      [mkCandidate 0 (box_confidence b) (decode fmul frame data)] /\
    let centerX := float_to_int (fmul (nth 0 data 0%Q) (int_to_float (cols frame))) in
    let centerY := float_to_int (fmul (nth 1 data 0%Q) (int_to_float (rows frame))) in
    let width := float_to_int (fmul (nth 2 data 0%Q) (int_to_float (cols frame))) in
    let height := float_to_int (fmul (nth 3 data 0%Q) (int_to_float (rows frame))) in
    box_x b = int_to_float (wrap32 (centerX - Z.quot width 2)) /\
    box_y b = int_to_float (wrap32 (centerY - Z.quot height 2)) /\
    box_width b = int_to_float width /\
    box_height b = int_to_float height.
Proof.
  intros Hlen Hi.
  destruct (published_row fmul frame outs sd frameCount i Hlen Hi)
    as (out & data & confidence & Hout & Hdata & Hmax & Hgt & Hb).
  exists (entry_of (mkCandidate 0 confidence (decode fmul frame data))),
    out, data.
  split; [ exact Hb | split; [ exact Hout | split; [ exact Hdata | ] ] ].
  split; [ apply filter_row_accepted; assumption | ].
  unfold entry_of, decode. cbn [cand_box box_x box_y box_width box_height
    rect_x rect_y rect_width rect_height]. auto.
Qed.

Lemma published_box_is_truncated_witness :
  length (boxes zeroed) = CAPACITY /\
  (0 < Z.to_nat (num_detections
                   (process_frame Qmult zeroed good_frame demo_outs 1)))%nat /\
  exists b,
    boxes (process_frame Qmult zeroed good_frame demo_outs 1) !! 0%nat = Some b /\
    box_x b = int_to_float 1.
Proof.
  assert (Hlen : length (boxes zeroed) = CAPACITY) by reflexivity.
  assert (Hi : (0 < Z.to_nat (num_detections
                   (process_frame Qmult zeroed good_frame demo_outs 1)))%nat)
    by (vm_compute; lia).
  split; [ exact Hlen | split; [ exact Hi | ] ].
  destruct (published_box_is_truncated Qmult good_frame demo_outs zeroed 1 0
              Hlen Hi) as (b & out & data & Hb & _).
  exists b. split; [ exact Hb | ].
  vm_compute in Hb. injection Hb as <-. vm_compute. reflexivity.
Defined.

(** C6 fails on the code: a 3 by 3 frame and a row with center-x 0.5 and
    width 0.5.  The products are 1.5 and 1.5, exact in binary32; the code
    publishes x = 1 - 1/2 = 1 in integers, the formula gives
    1.5 - 0.75 = 0.75. *)
Lemma published_left_not_real_formula :
  let data := [1 # 2; 1 # 2; 1 # 2; 1 # 2; 1; 9 # 10; 1 # 10]%Q in
  let new := process_frame Qmult zeroed good_frame [[data]] 1 in
  let centerX := nth 0 data 0%Q in
  let width := nth 2 data 0%Q in
  let frameWidth := inject_Z (cols good_frame) in
  num_detections new = 1 /\
  (box_x <$> boxes new !! 0%nat) = Some (inject_Z 1) /\
  (centerX * frameWidth - width * frameWidth / 2 == 3 # 4)%Q /\
  ~ (inject_Z 1 == centerX * frameWidth - width * frameWidth / 2)%Q.
Proof.
  repeat split. intros H. vm_compute in H. discriminate H.
Qed.

(** ** Truncation at the capacity *)

Lemma box_stores_take indices rects confidences (n i : nat) :
  (i < n)%nat ->
  box_stores (take n indices) rects confidences i =
  box_stores indices rects confidences i.
Proof.
  intros Hi. unfold box_stores.
  rewrite (nth_firstn n indices i 0%nat).
  replace (i <? n)%nat with true by (symmetry; apply Nat.ltb_lt; exact Hi).
  reflexivity.
Qed.

Lemma copy_loop_take indices rects confidences (n m : nat) :
  (m <= n)%nat ->
  copy_loop (take n indices) rects confidences m =
  copy_loop indices rects confidences m.
Proof.
  induction m as [ | m IH ]; intros Hm; [ reflexivity | ].
  rewrite !copy_loop_S, IH by lia.
  rewrite box_stores_take by lia. reflexivity.
Qed.

Lemma capped_take indices : capped (take CAPACITY indices) = capped indices.
Proof. unfold capped, CAPACITY. rewrite length_take. lia. Qed.

(** The stores of a publish are those for the first 50 indices. *)
Lemma publish_stores_take frameCount indices rects confidences :
  publish_stores frameCount (take CAPACITY indices) rects confidences =
  publish_stores frameCount indices rects confidences.
Proof.
  unfold publish_stores. rewrite capped_take, copy_loop_take; [ reflexivity | ].
  rewrite capped_nat. lia.
Qed.

(** C2, as the code has it.  The record has no truncation flag.  A publish
    stores [num_detections = min(N, 50)] and copies the first [min(N, 50)]
    indices of the suppressor output, in order, into the entries below that
    count; the record it leaves is the one it would leave for those first 50
    alone.  The suppressor output comes by descending confidence, so no
    candidate that is dropped has a greater confidence than one that is
    kept. *)
Theorem publish_caps_at_capacity sd frameCount rects confidences :
  (forall indices : list nat,
     let new := publish sd frameCount indices rects confidences in
     num_detections new = Z.min (Z.of_nat (length indices)) 50 /\
     (forall i : nat,
        boxes new !! i =
        if (i <? Nat.min (length indices) CAPACITY)%nat
        then (fun _ => published_box indices rects confidences i)
               <$> boxes sd !! i
        else boxes sd !! i) /\
     new = publish sd frameCount (take CAPACITY indices) rects confidences) /\
  (let indices := NMSBoxes rects confidences confThreshold nmsThreshold in
   Forall (fun j =>
             Forall (fun i => (nth j confidences 0 <= nth i confidences 0)%Q)
               (take CAPACITY indices))
     (drop CAPACITY indices)).
Proof.
  split.
  - intros indices new. subst new. split; [ | split ].
    + apply publish_header.
    + intros i. rewrite publish_boxes, capped_nat. reflexivity.
    + unfold publish. rewrite publish_stores_take. reflexivity.
  - intros indices.
    pose proof (NMSBoxes_descending rects confidences confThreshold
                  nmsThreshold) as Hs.
    fold indices in Hs. rewrite <- (take_drop CAPACITY indices) in Hs.
    apply StronglySorted_app in Hs as (Hs & _ & _).
    apply Forall_forall. intros j Hj. apply Forall_forall. intros i Hi.
    exact (Hs i j Hi Hj).
Qed.

(** C2 fails on the code: 51 boxes that do not meet, all above the
    confidence threshold, and the first 50 of them.  The suppressor keeps 51
    and 50; the two published records are the same record, so nothing read
    from the record tells that the first frame lost a detection. *)
Lemma truncation_leaves_no_flag :
  let rects := map (fun i => mkRect (20 * Z.of_nat i) 0 10 10) (seq 0 51) in
  let confidences :=
    map (fun i => (Z.of_nat (200 - i) # 201)%Q) (seq 0 51) in
  let indices := NMSBoxes rects confidences confThreshold nmsThreshold in
  let indices' :=
    NMSBoxes (take 50 rects) (take 50 confidences) confThreshold nmsThreshold in
  length indices = 51%nat /\
  length indices' = 50%nat /\
  publish zeroed 1 indices rects confidences =
    publish zeroed 1 indices' (take 50 rects) (take 50 confidences) /\
  forall truncated : DetectionData -> bool,
    ~ (truncated (publish zeroed 1 indices rects confidences) = true /\
       truncated (publish zeroed 1 indices' (take 50 rects)
                    (take 50 confidences)) = false).
Proof.
  intros rects confidences indices indices'.
  assert (Heq : publish zeroed 1 indices rects confidences =
                publish zeroed 1 indices' (take 50 rects) (take 50 confidences))
    by (vm_compute; reflexivity).
  split; [ vm_compute; reflexivity | ].
  split; [ vm_compute; reflexivity | ].
  split; [ exact Heq | ].
  intros truncated [H1 H2]. rewrite Heq in H1. congruence.
Qed.

(** ** Runs on small inputs *)

(** Four candidates: the second and the fourth tie at 0.9 and the second
    comes first; the first and the fourth overlap the second and are
    dropped. *)
Example NMSBoxes_four :
  NMSBoxes
    [mkRect 0 0 10 10; mkRect 1 1 10 10; mkRect 50 50 10 10; mkRect 0 0 10 10]
    [7 # 10; 9 # 10; 6 # 10; 9 # 10]%Q confThreshold nmsThreshold
  = [1%nat; 2%nat].
Proof. vm_compute. reflexivity. Qed.

(** Three frames, the second with 60 candidates that do not meet: the counts
    stored are 0, 50 and 0, and the run returns 0. *)
Example crowd_run :
  let env :=
    demo_env [mkFrame 1200 100 [0]; mkFrame 1200 100 [1]; mkFrame 1200 100 [0]] in
  let run := main Qmult crowd_forward env in
  snd run = Returned 0 /\
  published_frame_numbers (fst run) = [1; 2; 3] /\
  published_counts (fst run) = [0; 50; 0].
Proof. vm_compute. repeat split. Qed.

(** A row whose greatest score stands in another class, and a row whose
    greatest score is exactly the threshold: neither is a candidate. *)
Example filter_rejects :
  filter_outs Qmult good_frame
    [[[1 # 2; 1 # 2; 1 # 2; 1 # 2; 1; 6 # 10; 9 # 10];
      [1 # 2; 1 # 2; 1 # 2; 1 # 2; 1; 1 # 2; 1 # 10]]%Q] = [].
Proof. vm_compute. reflexivity. Qed.

(** * Further properties of the program *)

(** ** Events and stores *)

Lemma stores_of_app evs1 evs2 :
  stores_of (evs1 ++ evs2) = stores_of evs1 ++ stores_of evs2.
Proof. apply flat_map_app. Qed.

Lemma stores_of_map ss : stores_of (map Ev_store ss) = ss.
Proof.
  induction ss as [ | s ss IH ]; [ reflexivity | ].
  change (stores_of (map Ev_store (s :: ss)))
    with (s :: stores_of (map Ev_store ss)).
  rewrite IH. reflexivity.
Qed.

Lemma publish_events_are_stores evs :
  Forall (fun e => publish_event e = true) evs ->
  evs = map Ev_store (stores_of evs).
Proof.
  induction 1 as [ | e evs He _ IH ]; [ reflexivity | ].
  destruct e as [ | | | s | | ]; try discriminate.
  change (stores_of (Ev_store s :: evs)) with (s :: stores_of evs).
  rewrite map_cons, <- IH. reflexivity.
Qed.

Lemma run_stores ss : forall g,
  seg_attached g = true ->
  run_segment g (map Ev_store ss) =
  mkSegment (seg_exists g) true (apply_stores (seg_data g) ss).
Proof.
  induction ss as [ | s ss IH ]; intros g Hatt.
  - destruct g as [ex att d]. simpl in *. subst att. reflexivity.
  - change (run_segment g (map Ev_store (s :: ss)))
      with (run_segment (os_step g (Ev_store s)) (map Ev_store ss)).
    cbn [os_step]. rewrite Hatt. rewrite IH by reflexivity. reflexivity.
Qed.

Lemma run_first_three g :
  run_segment g [Ev_shmget; Ev_shmat; Ev_memset] = mkSegment true true zeroed.
Proof. destruct g as [[ | ] att d]; reflexivity. Qed.

(** The stores of a run that got through the start-up: the flag cleared,
    the publishes of the loop, and the flag set when the loop came to its
    end. *)
Lemma main_shape fmul forward env :
  starts env ->
  exists ss fin,
    fst (main fmul forward env) =
      [Ev_shmget; Ev_shmat; Ev_memset] ++ map Ev_store ss ++ fin /\
    (fin = [] \/ fin = [Ev_shmdt]) /\
    ss = St_processing_complete false
           :: stores_of (fst (stream fmul forward (video env) 0))
           ++ match snd (stream fmul forward (video env) 0) with
              | Some _ => [St_processing_complete true]
              | None => []
              end.
Proof.
  intros Hs. rewrite (main_starts fmul forward env Hs).
  pose proof (publish_events_are_stores _
                (stream_publish_events fmul forward (video env) 0)) as Hev.
  set (PS := stores_of (fst (stream fmul forward (video env) 0))) in *.
  destruct (snd (stream fmul forward (video env) 0)) as [r | ]; cbn [fst].
  - exists (St_processing_complete false :: PS ++ [St_processing_complete true]),
      [Ev_shmdt].
    split; [ | split; [ right; reflexivity | reflexivity ] ].
    rewrite Hev at 1. unfold init_events, final_events.
    rewrite map_cons, map_app. simpl. rewrite <- app_assoc. reflexivity.
  - exists (St_processing_complete false :: PS), [].
    split; [ | split; [ left; reflexivity | rewrite app_nil_r; reflexivity ] ].
    rewrite Hev at 1. unfold init_events. rewrite app_nil_r. reflexivity.
Qed.

Lemma main_stores fmul forward env ss fin :
  fst (main fmul forward env) =
    [Ev_shmget; Ev_shmat; Ev_memset] ++ map Ev_store ss ++ fin ->
  fin = [] \/ fin = [Ev_shmdt] ->
  forall g (k : nat),
    (3 <= k)%nat ->
    region_at fmul forward env g k = apply_stores zeroed (take (k - 3) ss) /\
    stores_of (take k (fst (main fmul forward env))) = take (k - 3) ss.
Proof.
  intros Hev Hfin g k Hk. unfold region_at. rewrite Hev.
  rewrite take_app_ge by (simpl; lia). simpl length.
  rewrite run_segment_app, run_first_three, stores_of_app. simpl stores_of at 1.
  rewrite take_app, firstn_map, run_segment_app, run_stores by reflexivity.
  rewrite stores_of_app, stores_of_map. cbn [seg_exists seg_data app].
  assert (Hf : take (k - 3 - length (map Ev_store ss)) fin = []
               \/ take (k - 3 - length (map Ev_store ss)) fin = [Ev_shmdt]).
  { destruct Hfin as [-> | ->]; [ left; apply take_nil | ].
    destruct (k - 3 - length (map Ev_store ss))%nat as [ | n ];
      [ left; reflexivity | right ].
    simpl. rewrite take_nil. reflexivity. }
  destruct Hf as [-> | ->]; simpl; rewrite app_nil_r; auto.
Qed.

(** ** Exit codes and failed start-ups *)

Lemma main_outcome fmul forward env :
  snd (main fmul forward env) =
  if video_opens env && shmget_succeeds env && shmat_succeeds env
  then match snd (stream fmul forward (video env) 0) with
       | Some _ => Returned 0
       | None => Terminated
       end
  else Returned (-1).
Proof.
  unfold main.
  destruct (video_opens env), (shmget_succeeds env), (shmat_succeeds env);
    try reflexivity.
  simpl. destruct (stream fmul forward (video env) 0) as [evs [r | ]];
    reflexivity.
Qed.

Local Ltac break_hyps :=
  repeat match goal with
         | H : _ /\ _ |- _ => destruct H
         | H : _ \/ _ |- _ => destruct H
         | H : is_Some None |- _ => destruct H as [? H]; discriminate H
         | H : ~ is_Some (Some _) |- _ =>
             exfalso; apply H; eexists; reflexivity
         | H : ?x <> ?x |- _ => exfalso; apply H; reflexivity
         | H : _ <-> _ |- _ => destruct H
         end.

Local Ltac settle :=
  break_hyps;
  first [ done
        | eexists; reflexivity
        | intro; settle
        | split; settle
        | left; settle
        | right; settle ].

(** X1.  The exit of the program.  It returns 0 exactly when it is given one
    argument, the network loads, the video opens, the segment is created and
    attached, and the inference succeeds on every frame.  It returns -1
    exactly when the argument count is wrong or one of the three start-up
    calls fails.  In every other case, a network that does not load or an
    inference that throws, it ends by an exception. *)
Theorem program_exit_code fmul forward argc net_loads env :
  let out := snd (program fmul forward argc net_loads env) in
  let all_inferred :=
    Forall (fun frame => is_Some (forward frame)) (video env) in
  (out = Returned 0 <->
   argc = 2 /\ net_loads = true /\ starts env /\ all_inferred) /\
  (out = Returned (-1) <->
   argc <> 2 \/ (net_loads = true /\ ~ starts env)) /\
  (out = Terminated <->
   argc = 2 /\ (net_loads = false \/ (starts env /\ ~ all_inferred))).
Proof.
  intros out all_inferred. subst out all_inferred. unfold program.
  rewrite (stream_all_succeed fmul forward (video env) 0), starts_bools.
  destruct (Z.eqb_spec argc 2) as [Hargc | Hargc]; simpl;
    [ | split; [ | split ]; split; intros H; settle ].
  destruct net_loads; simpl;
    [ | split; [ | split ]; split; intros H; settle ].
  rewrite main_outcome.
  destruct (video_opens env && shmget_succeeds env && shmat_succeeds env);
    [ destruct (snd (stream fmul forward (video env) 0)) as [r | ] | ];
    (split; [ | split ]; split; intros H; settle).
Qed.

(** X2.  A run in which a start-up call fails returns -1 and does nothing
    but, at most, the [shmget]: it attaches nothing, writes nothing and
    detaches nothing, and a segment that is already there is left exactly
    as it was. *)
Theorem failed_start_leaves_segment fmul forward env g :
  ~ starts env ->
  snd (main fmul forward env) = Returned (-1) /\
  Forall (fun e => e = Ev_shmget) (fst (main fmul forward env)) /\
  (length (fst (main fmul forward env)) <= 1)%nat /\
  seg_attached (run_segment g (fst (main fmul forward env))) = seg_attached g /\
  (seg_exists g = true -> run_segment g (fst (main fmul forward env)) = g).
Proof.
  intros Hs. rewrite starts_bools in Hs. unfold main.
  destruct (video_opens env); simpl.
  2:{ repeat split; auto. }
  destruct (shmget_succeeds env); simpl.
  2:{ repeat split; auto. }
  destruct (shmat_succeeds env); simpl.
  { exfalso. apply Hs. reflexivity. }
  split; [ reflexivity | split; [ repeat constructor | split; [ lia | ] ] ].
  unfold run_segment. simpl. destruct g as [[ | ] att d]; simpl; auto.
  split; [ reflexivity | discriminate ].
Qed.

Lemma failed_start_leaves_segment_witness :
  let env := mkEnvironment true true false [good_frame] in
  let g := mkSegment true false zeroed in
  ~ starts env /\
  run_segment g (fst (main Qmult demo_forward env)) = g.
Proof.
  intros env g.
  assert (Hs : ~ starts env) by (intros (_ & _ & H); discriminate H).
  split; [ exact Hs | ].
  destruct (failed_start_leaves_segment Qmult demo_forward env g Hs)
    as (_ & _ & _ & _ & H).
  apply H. reflexivity.
Defined.

(** ** Bounds of the record *)

Lemma copy_loop_in_bounds indices rects confidences (n : nat) :
  (n <= CAPACITY)%nat ->
  Forall store_in_bounds (copy_loop indices rects confidences n).
Proof.
  intros Hn. apply Forall_forall. intros s Hs.
  apply (list_elem_of_fmap_2 store_loc) in Hs.
  apply copy_loop_locs in Hs as (i & f & Hloc & Hi).
  destruct s as [v | v | j g v | b]; try discriminate Hloc.
  injection Hloc as -> _. simpl. lia.
Qed.

Lemma publish_stores_in_bounds frameCount indices rects confidences :
  Forall store_in_bounds (publish_stores frameCount indices rects confidences).
Proof.
  unfold publish_stores.
  constructor; [ exact I | constructor; [ apply capped_range | ] ].
  apply copy_loop_in_bounds. rewrite capped_nat. lia.
Qed.

Lemma stream_in_bounds fmul forward frames : forall frameCount,
  Forall event_in_bounds (fst (stream fmul forward frames frameCount)).
Proof.
  induction frames as [ | frame rest IH ]; intros frameCount.
  - constructor.
  - rewrite stream_cons.
    destruct (forward frame) as [outs | ]; [ | constructor ].
    cbn [fst]. apply Forall_app. split; [ | apply IH ].
    apply Forall_fmap. unfold frame_stores.
    exact (publish_stores_in_bounds _ _ _ _).
Qed.

Lemma main_in_bounds fmul forward env :
  Forall event_in_bounds (fst (main fmul forward env)).
Proof.
  pose proof (stream_in_bounds fmul forward (video env) 0) as Hs.
  unfold main.
  destruct (video_opens env); [ | constructor ].
  destruct (shmget_succeeds env); [ | constructor ].
  destruct (shmat_succeeds env); simpl negb; cbv iota;
    [ | repeat constructor ].
  destruct (stream fmul forward (video env) 0) as [evs [r | ]]; cbn [fst] in *.
  - apply Forall_app. split; [ repeat constructor | ].
    apply Forall_app. split; [ exact Hs | repeat constructor ].
  - apply Forall_app. split; [ repeat constructor | exact Hs ].
Qed.

(** X3.  No run of the program writes outside the record: every store into
    [boxes] goes to an entry below 50, and every value stored into
    [num_detections] lies between 0 and 50. *)
Theorem stores_stay_in_record fmul forward argc net_loads env :
  Forall event_in_bounds (fst (program fmul forward argc net_loads env)).
Proof.
  unfold program.
  destruct (argc =? 2); simpl; [ | constructor ].
  destruct net_loads; simpl; [ | constructor ].
  apply main_in_bounds.
Qed.

Lemma apply_store_well_formed sd s :
  store_in_bounds s -> well_formed sd -> well_formed (apply_store sd s).
Proof.
  unfold well_formed.
  destruct s as [v | v | i f v | b]; simpl; intros Hs [Hn Hl]; auto.
  rewrite length_alter. auto.
Qed.

Lemma apply_stores_well_formed ss : forall sd,
  Forall store_in_bounds ss -> well_formed sd ->
  well_formed (apply_stores sd ss).
Proof.
  induction ss as [ | s ss IH ]; intros sd Hall Hwf; [ exact Hwf | ].
  apply Forall_cons in Hall as [Hs Hall].
  change (apply_stores sd (s :: ss)) with (apply_stores (apply_store sd s) ss).
  apply IH; [ exact Hall | ]. apply apply_store_well_formed; assumption.
Qed.

Lemma zeroed_well_formed : well_formed zeroed.
Proof. split; [ simpl; lia | reflexivity ]. Qed.

Lemma main_stores_in_bounds fmul forward env ss fin :
  fst (main fmul forward env) =
    [Ev_shmget; Ev_shmat; Ev_memset] ++ map Ev_store ss ++ fin ->
  Forall store_in_bounds ss.
Proof.
  intros Hev.
  pose proof (main_in_bounds fmul forward env) as Hall.
  rewrite Hev in Hall.
  apply Forall_app in Hall as [_ Hall]. apply Forall_app in Hall as [Hall _].
  change (map Ev_store ss) with (Ev_store <$> ss) in Hall.
  rewrite Forall_fmap in Hall. exact Hall.
Qed.

(** X4.  From the [memset] on, at every moment of a run, the record in the
    segment can be read without leaving the array: [num_detections] lies
    between 0 and 50 and [boxes] has its 50 entries, whatever the segment
    held when the run began. *)
Theorem region_always_well_formed fmul forward env g (k : nat) :
  starts env ->
  (3 <= k)%nat ->
  well_formed (region_at fmul forward env g k).
Proof.
  intros Hs Hk.
  destruct (main_shape fmul forward env Hs) as (ss & fin & Hev & Hfin & _).
  destruct (main_stores fmul forward env ss fin Hev Hfin g k Hk) as [-> _].
  apply apply_stores_well_formed; [ | apply zeroed_well_formed ].
  eapply Forall_sublist_of; [ apply sublist_take | ].
  exact (main_stores_in_bounds fmul forward env ss fin Hev).
Qed.

Lemma region_always_well_formed_witness :
  let env := demo_env [good_frame; good_frame] in
  let g := mkSegment true false (mkDetectionData 7 99 [] true) in
  starts env /\ (3 <= 7)%nat /\
  well_formed (region_at Qmult demo_forward env g 7).
Proof.
  intros env g.
  assert (Hs : starts env) by (repeat split).
  split; [ exact Hs | split; [ lia | ] ].
  apply (region_always_well_formed Qmult demo_forward env g 7 Hs). lia.
Defined.

(** ** The frame number a reader finds *)

Lemma published_of_stores evs :
  published_frame_numbers evs =
  published_frame_numbers (map Ev_store (stores_of evs)).
Proof.
  induction evs as [ | e evs IH ]; [ reflexivity | ].
  change (e :: evs) with ([e] ++ evs).
  rewrite stores_of_app, map_app, !published_app, <- IH.
  destruct e as [ | | | s | | ]; reflexivity.
Qed.

Lemma last_cons_default (v : Z) (l : list Z) (d : Z) :
  default d (last (v :: l)) = default v (last l).
Proof.
  revert v d. induction l as [ | w l IH ]; intros v d; [ reflexivity | ].
  change (last (v :: w :: l)) with (last (w :: l)).
  rewrite (IH w d), (IH w v). reflexivity.
Qed.

Lemma frame_number_apply_stores ss : forall sd,
  frame_number (apply_stores sd ss) =
  default (frame_number sd) (last (published_frame_numbers (map Ev_store ss))).
Proof.
  induction ss as [ | s ss IH ]; intros sd; [ reflexivity | ].
  change (apply_stores sd (s :: ss)) with (apply_stores (apply_store sd s) ss).
  rewrite IH. rewrite map_cons.
  change (Ev_store s :: map Ev_store ss) with ([Ev_store s] ++ map Ev_store ss).
  rewrite published_app.
  destruct s as [v | v | i f v | b]; simpl; try reflexivity.
  rewrite last_cons_default. reflexivity.
Qed.

Lemma count_up_last (n : nat) :
  default 0 (last (Z.of_nat <$> seq 1 n)) = Z.of_nat n.
Proof.
  destruct n as [ | n ]; [ reflexivity | ].
  rewrite seq_S, fmap_app.
  change (Z.of_nat <$> [(1 + n)%nat]) with [Z.of_nat (S n)].
  rewrite last_snoc. reflexivity.
Qed.

Lemma count_up_prefix (l1 l2 : list Z) (m : nat) :
  l1 ++ l2 = Z.of_nat <$> seq 1 m ->
  l1 = Z.of_nat <$> seq 1 (length l1).
Proof.
  intros H.
  assert (Hlen : (length l1 <= m)%nat).
  { apply (f_equal length) in H.
    rewrite length_app, length_fmap, length_seq in H. lia. }
  rewrite <- (take_app_length l1 l2), H, <- fmap_take, take_seq.
  rewrite length_fmap, length_seq, Nat.min_l by lia.
  replace (length l1 `min` m)%nat with (length l1) by lia. reflexivity.
Qed.

Lemma main_published fmul forward env :
  starts env ->
  published_frame_numbers (fst (main fmul forward env)) =
  published_frame_numbers (fst (stream fmul forward (video env) 0)).
Proof.
  intros Hs. rewrite (main_starts fmul forward env Hs).
  destruct (snd (stream fmul forward (video env) 0)); cbn [fst];
    rewrite !published_app; simpl; rewrite ?app_nil_r; reflexivity.
Qed.

(** The frame number in the segment after [k] events is the number of
    publishes begun by then. *)
Lemma region_frame_number fmul forward env g (k : nat) :
  starts env ->
  Z.of_nat (length (video env)) <= INT_MAX ->
  (3 <= k)%nat ->
  frame_number (region_at fmul forward env g k) =
  Z.of_nat (length (published_frame_numbers
                      (take k (fst (main fmul forward env))))).
Proof.
  intros Hs Hmax Hk.
  destruct (main_shape fmul forward env Hs) as (ss & fin & Hev & Hfin & _).
  destruct (main_stores fmul forward env ss fin Hev Hfin g k Hk) as [-> Hst].
  rewrite frame_number_apply_stores, <- Hst, <- published_of_stores.
  destruct (stream_published fmul forward (video env) 0) as (m & _ & Hpub & _);
    [ lia | lia | ].
  rewrite <- (main_published fmul forward env Hs) in Hpub.
  rewrite <- (take_drop k (fst (main fmul forward env))), published_app in Hpub.
  apply count_up_prefix in Hpub. rewrite Hpub at 1.
  apply count_up_last.
Qed.

(** X5.  From the [memset] on, the [frame_number] a reader finds is the
    number of frames whose publish has begun, and so it never goes down
    while the run goes on: a greater frame number is a later frame. *)
Theorem frame_number_never_decreases fmul forward env g (k k' : nat) :
  starts env ->
  Z.of_nat (length (video env)) <= INT_MAX ->
  (3 <= k <= k')%nat ->
  frame_number (region_at fmul forward env g k) =
    Z.of_nat (length (published_frame_numbers
                        (take k (fst (main fmul forward env))))) /\
  frame_number (region_at fmul forward env g k)
    <= frame_number (region_at fmul forward env g k').
Proof.
  intros Hs Hmax [Hk Hk'].
  rewrite !(region_frame_number fmul forward env g) by (assumption || lia).
  split; [ reflexivity | ].
  replace (take k (fst (main fmul forward env)))
    with (take k (take k' (fst (main fmul forward env))))
    by (rewrite take_take; f_equal; lia).
  rewrite <- (take_drop k (take k' (fst (main fmul forward env)))) at 2.
  rewrite published_app, length_app. lia.
Qed.

Lemma frame_number_never_decreases_witness :
  let env := demo_env [good_frame; good_frame; good_frame] in
  let g := mkSegment true false (mkDetectionData 7 99 [] true) in
  starts env /\
  frame_number (region_at Qmult demo_forward env g 5)
    <= frame_number (region_at Qmult demo_forward env g 12).
Proof.
  intros env g.
  assert (Hs : starts env) by (repeat split).
  split; [ exact Hs | ].
  apply (frame_number_never_decreases Qmult demo_forward env g 5 12 Hs).
  - unfold INT_MAX. simpl. lia.
  - lia.
Defined.

(** ** The completion flag a reader finds *)

Lemma flag_stays_clear ss : forall sd,
  Forall (fun s => sets_complete (Ev_store s) = false) ss ->
  processing_complete sd = false ->
  processing_complete (apply_stores sd ss) = false.
Proof.
  induction ss as [ | s ss IH ]; intros sd Hall Hpc; [ exact Hpc | ].
  apply Forall_cons in Hall as [Hs Hall].
  change (apply_stores sd (s :: ss)) with (apply_stores (apply_store sd s) ss).
  apply IH; [ exact Hall | ].
  destruct s as [v | v | i f v | [ | ]]; simpl in *; congruence.
Qed.

Lemma stream_stores_not_complete fmul forward frames frameCount :
  Forall (fun s => sets_complete (Ev_store s) = false)
    (stores_of (fst (stream fmul forward frames frameCount))).
Proof.
  pose proof (stream_not_complete fmul forward frames frameCount) as H.
  rewrite (publish_events_are_stores _
             (stream_publish_events fmul forward frames frameCount)) in H.
  change (map Ev_store ?l) with (Ev_store <$> l) in H.
  rewrite Forall_fmap in H. exact H.
Qed.

(** X6.  From the [memset] on, a reader that finds [processing_complete]
    set has the final record before it: the record does not change any more,
    and the run is one that returns 0.  The flag is never seen set while
    frames are still being published. *)
Theorem completion_flag_means_final fmul forward env g (k : nat) :
  starts env ->
  (3 <= k)%nat ->
  processing_complete (region_at fmul forward env g k) = true ->
  snd (main fmul forward env) = Returned 0 /\
  region_at fmul forward env g k =
    seg_data (run_segment g (fst (main fmul forward env))) /\
  forall k' : nat, (k <= k')%nat ->
    region_at fmul forward env g k' = region_at fmul forward env g k.
Proof.
  intros Hs Hk Hpc.
  destruct (main_shape fmul forward env Hs) as (ss & fin & Hev & Hfin & Hss).
  pose proof (main_stores fmul forward env ss fin Hev Hfin g) as Hat.
  destruct (Hat k Hk) as [Hreg _]. rewrite Hreg in Hpc.
  set (PS := stores_of (fst (stream fmul forward (video env) 0))) in *.
  assert (Hclear : Forall (fun s => sets_complete (Ev_store s) = false)
                     (St_processing_complete false :: PS)).
  { constructor; [ reflexivity | apply stream_stores_not_complete ]. }
  assert (Hwhole : (length ss <= k - 3)%nat /\
                   snd (stream fmul forward (video env) 0) <> None).
  { destruct (snd (stream fmul forward (video env) 0)) as [r | ].
    - split; [ | discriminate ].
      destruct (Nat.le_gt_cases (length ss) (k - 3)) as [Hle | Hlt];
        [ exact Hle | exfalso ].
      rewrite Hss, app_comm_cons, take_app_le in Hpc
        by (rewrite Hss, app_comm_cons, length_app in Hlt;
            simpl in Hlt; simpl; lia).
      rewrite flag_stays_clear in Hpc; [ discriminate Hpc | | reflexivity ].
      eapply Forall_sublist_of; [ apply sublist_take | exact Hclear ].
    - exfalso. rewrite Hss, app_nil_r in Hpc.
      rewrite flag_stays_clear in Hpc; [ discriminate Hpc | | reflexivity ].
      eapply Forall_sublist_of; [ apply sublist_take | exact Hclear ]. }
  destruct Hwhole as [Hlen Hsome].
  assert (Hfull : forall j : nat, (k <= j)%nat ->
            region_at fmul forward env g j = apply_stores zeroed ss).
  { intros j Hj. destruct (Hat j) as [-> _]; [ lia | ].
    rewrite take_ge by lia. reflexivity. }
  split; [ | split ].
  - rewrite main_outcome. apply starts_bools in Hs. rewrite Hs.
    destruct (snd (stream fmul forward (video env) 0));
      [ reflexivity | contradiction ].
  - rewrite (Hfull k) by lia.
    rewrite <- (Hfull (Nat.max k (length (fst (main fmul forward env))))) by lia.
    unfold region_at. rewrite take_ge by lia. reflexivity.
  - intros k' Hk'. rewrite (Hfull k), (Hfull k') by lia. reflexivity.
Qed.

Lemma completion_flag_means_final_witness :
  let env := demo_env [good_frame] in
  let g := mkSegment false false zeroed in
  starts env /\
  processing_complete (region_at Qmult demo_forward env g 12) = true /\
  snd (main Qmult demo_forward env) = Returned 0.
Proof.
  intros env g.
  assert (Hs : starts env) by (repeat split).
  assert (Hpc : processing_complete (region_at Qmult demo_forward env g 12) = true)
    by (vm_compute; reflexivity).
  split; [ exact Hs | split; [ exact Hpc | ] ].
  apply (completion_flag_means_final Qmult demo_forward env g 12 Hs);
    [ lia | exact Hpc ].
Defined.

(** Before the [memset] the segment can still hold the record of an earlier
    run: a reader that looks after the attach finds that run's completion
    flag although nothing has been published yet. *)
Example stale_flag_before_memset :
  let env := demo_env [good_frame] in
  let g := mkSegment true false (mkDetectionData 9 0 (boxes zeroed) true) in
  processing_complete (region_at Qmult demo_forward env g 2) = true /\
  published_frame_numbers (take 2 (fst (main Qmult demo_forward env))) = [].
Proof. split; reflexivity. Qed.

(** ** The record a run leaves *)

Lemma stream_run_frames fmul forward frames : forall frameCount sd,
  apply_stores sd (stores_of (fst (stream fmul forward frames frameCount))) =
  run_frames fmul forward frames frameCount sd.
Proof.
  induction frames as [ | frame rest IH ]; intros frameCount sd;
    [ reflexivity | ].
  rewrite stream_cons. simpl run_frames.
  destruct (forward frame) as [outs | ]; [ | reflexivity ].
  cbn [fst]. rewrite stores_of_app, stores_of_map, apply_stores_app.
  apply IH.
Qed.

(** X8.  The record a run leaves in the segment is the zeroed record taken
    through the frames one [process_frame] after the other: through all of
    them, with the completion flag set on top, when the run returns 0, and
    through the frames before the first failing one when the inference
    throws.  What the segment held before the run does not matter. *)
Theorem run_leaves_fold_of_frames fmul forward env g :
  starts env ->
  seg_data (run_segment g (fst (main fmul forward env))) =
  match snd (main fmul forward env) with
  | Returned 0 =>
      apply_store (run_frames fmul forward (video env) 0 zeroed)
        (St_processing_complete true)
  | _ => run_frames fmul forward (video env) 0 zeroed
  end.
Proof.
  intros Hs.
  destruct (main_shape fmul forward env Hs) as (ss & fin & Hev & Hfin & Hss).
  destruct (main_stores fmul forward env ss fin Hev Hfin g
              (length (fst (main fmul forward env)))) as [Hreg _].
  { rewrite Hev. simpl. lia. }
  unfold region_at in Hreg. rewrite firstn_all in Hreg. rewrite Hreg.
  rewrite take_ge
    by (rewrite Hev, !length_app, length_map; simpl; lia).
  rewrite main_outcome. apply starts_bools in Hs. rewrite Hs. rewrite Hss.
  change (apply_stores zeroed (St_processing_complete false :: ?l))
    with (apply_stores zeroed l).
  rewrite apply_stores_app, stream_run_frames.
  destruct (snd (stream fmul forward (video env) 0)); reflexivity.
Qed.

Lemma run_leaves_fold_of_frames_witness :
  let env := demo_env [good_frame; bad_frame; good_frame] in
  let g := mkSegment true false (mkDetectionData 9 0 [] true) in
  starts env /\
  seg_data (run_segment g (fst (main Qmult demo_forward env))) =
    process_frame Qmult zeroed good_frame demo_outs 1.
Proof.
  intros env g.
  assert (Hs : starts env) by (repeat split).
  split; [ exact Hs | ].
  rewrite (run_leaves_fold_of_frames Qmult demo_forward env g Hs).
  vm_compute. reflexivity.
Defined.

(** X7.  After a run that returns 0 the record holds the number of frames of
    the video as its [frame_number] (0 for a video without frames), the
    completion flag, and a count and an array a consumer can read. *)
Theorem normal_run_final_record fmul forward env g :
  snd (main fmul forward env) = Returned 0 ->
  Z.of_nat (length (video env)) <= INT_MAX ->
  let final := seg_data (run_segment g (fst (main fmul forward env))) in
  frame_number final = Z.of_nat (length (video env)) /\
  processing_complete final = true /\
  well_formed final.
Proof.
  intros Hret Hmax final.
  destruct (run_returned_0 fmul forward env g Hret) as (_ & _ & _ & Hrun).
  destruct (main_returned_0 fmul forward env Hret) as [Hs Hev].
  set (n := length (fst (main fmul forward env))).
  assert (Hn : (3 <= n)%nat) by (subst n; rewrite Hev; simpl; lia).
  assert (Hfinal : final = region_at fmul forward env g n).
  { unfold region_at, n. rewrite firstn_all. reflexivity. }
  split; [ | split ].
  - rewrite Hfinal, (region_frame_number fmul forward env g n Hs Hmax Hn).
    unfold n. rewrite firstn_all, (main_published fmul forward env Hs).
    destruct (stream_published fmul forward (video env) 0)
      as (m & _ & Hpub & Hall); [ lia | lia | ].
    rewrite Hpub, length_fmap, length_seq. f_equal. apply Hall.
    apply (stream_all_succeed fmul forward (video env) 0).
    pose proof (main_outcome fmul forward env) as Hout.
    rewrite Hret in Hout. apply starts_bools in Hs. rewrite Hs in Hout.
    apply (stream_all_succeed fmul forward (video env) 0).
    destruct (snd (stream fmul forward (video env) 0)); [ eauto | discriminate ].
  - unfold final. rewrite Hrun. reflexivity.
  - rewrite Hfinal.
    destruct (main_shape fmul forward env Hs) as (ss & fin & Hev' & Hfin & _).
    destruct (main_stores fmul forward env ss fin Hev' Hfin g n Hn) as [-> _].
    apply apply_stores_well_formed; [ | apply zeroed_well_formed ].
    eapply Forall_sublist_of; [ apply sublist_take | ].
    exact (main_stores_in_bounds fmul forward env ss fin Hev').
Qed.

Lemma normal_run_final_record_witness :
  let env := demo_env [good_frame; good_frame; good_frame] in
  let g := mkSegment true false (mkDetectionData 9 0 [] true) in
  snd (main Qmult demo_forward env) = Returned 0 /\
  frame_number (seg_data (run_segment g (fst (main Qmult demo_forward env)))) = 3.
Proof.
  intros env g.
  assert (H : snd (main Qmult demo_forward env) = Returned 0)
    by (vm_compute; reflexivity).
  split; [ exact H | ].
  destruct (normal_run_final_record Qmult demo_forward env g H) as (Hf & _).
  - unfold INT_MAX. simpl. lia.
  - rewrite Hf. reflexivity.
Defined.

(** ** What the filter lets through *)

Lemma max_scan_spec rest : forall (i : Z) (b : Q) (p : Z),
  (Forall (fun s => (s <= b)%Q) rest /\ max_scan rest i (b, p) = (b, p)) \/
  (~ Forall (fun s => (s <= b)%Q) rest /\ i <= snd (max_scan rest i (b, p))).
Proof.
  induction rest as [ | s rest IH ]; intros i b p.
  - left. split; [ constructor | reflexivity ].
  - simpl max_scan. simpl fst. destruct (Qgtb s b) eqn:E.
    + right. split.
      * intros H. apply Forall_cons in H as [H _].
        apply Qgtb_lt in E. exact (Qlt_not_le _ _ E H).
      * destruct (IH (i + 1) s i) as [[_ ->] | [_ H]]; simpl; lia.
    + apply Qgtb_le in E.
      destruct (IH (i + 1) b p) as [[Hall ->] | [Hnot H]].
      * left. split; [ constructor; assumption | reflexivity ].
      * right. split; [ | lia ].
        intros H'. apply Forall_cons in H' as [_ H']. exact (Hnot H').
Qed.

(** X10.  A row is accepted exactly when it has class scores, the score of
    class 0 exceeds [confThreshold], and no other class has a greater score
    (on a tie class 0 wins).  An accepted row gives one candidate, with the
    score of class 0 as its confidence. *)
Theorem filter_row_accepts fmul frame data :
  (filter_row fmul frame data <> [] <->
   exists s0 rest,
     drop 5 data = s0 :: rest /\ (confThreshold < s0)%Q /\
     Forall (fun s => (s <= s0)%Q) rest) /\
  (forall s0 rest,
     drop 5 data = s0 :: rest -> (confThreshold < s0)%Q ->
     Forall (fun s => (s <= s0)%Q) rest ->
     filter_row fmul frame data = [mkCandidate 0 s0 (decode fmul frame data)]).
Proof.
  assert (Hacc : forall s0 rest,
            drop 5 data = s0 :: rest -> (confThreshold < s0)%Q ->
            Forall (fun s => (s <= s0)%Q) rest ->
            filter_row fmul frame data =
              [mkCandidate 0 s0 (decode fmul frame data)]).
  { intros s0 rest Hd Hgt Hall. unfold filter_row, minMaxLoc. rewrite Hd.
    destruct (max_scan_spec rest 1 s0 0) as [[_ ->] | [Hnot _]];
      [ | contradiction ].
    simpl. apply Qgtb_lt in Hgt. rewrite Hgt. reflexivity. }
  split; [ | exact Hacc ]. split.
  - unfold filter_row, minMaxLoc.
    destruct (drop 5 data) as [ | s0 rest ]; [ simpl; congruence | ].
    destruct (max_scan_spec rest 1 s0 0) as [[Hall ->] | [_ Hidx]].
    + simpl. destruct (Qgtb s0 confThreshold) eqn:E; [ | congruence ].
      intros _. exists s0, rest. apply Qgtb_lt in E. auto.
    + destruct (max_scan rest 1 (s0, 0)) as [m j]. simpl in Hidx.
      replace (j =? 0) with false by (symmetry; apply Z.eqb_neq; lia).
      simpl. congruence.
  - intros (s0 & rest & Hd & Hgt & Hall).
    rewrite (Hacc s0 rest Hd Hgt Hall). discriminate.
Qed.

Lemma filter_row_accepts_witness :
  let data := [1 # 2; 1 # 2; 1 # 2; 1 # 2; 1; 9 # 10; 9 # 10]%Q in
  drop 5 data = [9 # 10; 9 # 10]%Q /\
  filter_row Qmult good_frame data =
    [mkCandidate 0 (9 # 10) (decode Qmult good_frame data)].
Proof.
  intros data. split; [ reflexivity | ].
  destruct (filter_row_accepts Qmult good_frame data) as [_ H].
  apply (H (9 # 10)%Q [9 # 10]%Q).
  - reflexivity.
  - reflexivity.
  - repeat constructor. discriminate.
Defined.

(** ** What a consumer reads back *)

Lemma map_nth_seq {A B : Type} (f : A -> B) (d : A) (l : list A) :
  forall n : nat,
    (n <= length l)%nat ->
    map (fun i => f (nth i l d)) (seq 0 n) = map f (take n l).
Proof.
  induction l as [ | x l IH ]; intros n Hn.
  - simpl in Hn. replace n with 0%nat by lia. reflexivity.
  - destruct n as [ | n ]; [ reflexivity | ].
    simpl in Hn. simpl. f_equal.
    rewrite <- seq_shift, map_map. apply IH. lia.
Qed.

Lemma take_capped (indices : list nat) :
  take (Z.to_nat (capped indices)) indices = take CAPACITY indices.
Proof.
  rewrite capped_nat.
  destruct (Nat.le_gt_cases (length indices) CAPACITY) as [H | H].
  - rewrite Nat.min_l by exact H. rewrite !take_ge by lia. reflexivity.
  - rewrite Nat.min_r by lia. reflexivity.
Qed.

(** The entries a consumer reads after a publish are the entries of the
    first 50 indices, in their order. *)
Lemma read_detections_publish sd frameCount indices rects confidences :
  length (boxes sd) = CAPACITY ->
  read_detections (publish sd frameCount indices rects confidences) =
  map (entry_at rects confidences) (take CAPACITY indices).
Proof.
  intros Hlen. unfold read_detections.
  destruct (publish_header sd frameCount indices rects confidences)
    as (_ & -> & _).
  rewrite <- take_capped.
  rewrite <- (map_nth_seq (entry_at rects confidences) 0%nat)
    by (rewrite capped_nat; lia).
  apply list_eq. intros i. rewrite lookup_take.
  change (map ?f ?l) with (f <$> l). rewrite list_lookup_fmap.
  destruct (decide (i < Z.to_nat (capped indices))%nat) as [Hi | Hi].
  - rewrite publish_boxes.
    replace (i <? Z.to_nat (capped indices))%nat with true
      by (symmetry; apply Nat.ltb_lt; exact Hi).
    rewrite lookup_seq_lt by exact Hi.
    destruct (lookup_lt_is_Some_2 (boxes sd) i) as [b ->];
      [ rewrite Hlen; rewrite capped_nat in Hi; lia | ].
    reflexivity.
  - rewrite lookup_seq_ge by lia. reflexivity.
Qed.

Lemma round_binary32_small (n : Z) : exact_in_float n -> round_binary32 n = n.
Proof.
  unfold exact_in_float, round_binary32. intros Hn.
  assert (Hlog : Z.log2 (Z.abs n) - 23 <= 0).
  { destruct (Z.eq_dec (Z.abs n) 0) as [-> | Hne]; [ simpl; lia | ].
    assert (Z.log2 (Z.abs n) < 24) by (apply Z.log2_lt_pow2; lia). lia. }
  apply Z.leb_le in Hlog. rewrite Hlog. reflexivity.
Qed.

Lemma float_int_float (n : Z) :
  exact_in_float n -> float_to_int (int_to_float n) = n.
Proof.
  intros Hn. unfold int_to_float. rewrite (round_binary32_small n Hn).
  unfold float_to_int, trunc. simpl. rewrite Z.quot_1_r.
  unfold exact_in_float in Hn.
  replace (in_int n) with true; [ reflexivity | ].
  symmetry. unfold in_int, INT_MIN, INT_MAX.
  apply andb_true_iff. split; apply Z.leb_le; lia.
Qed.

(** X11.  A consumer that reads the entries below [num_detections] after a
    publish, and casts the coordinates back to [int], gets the boxes and
    the confidences of the first 50 indices of the suppressor output,
    neither more nor fewer, in the same order, as long as the coordinates
    of those boxes are below 2^24 in magnitude, where the store as [float]
    is exact. *)
Theorem consumer_reads_back_detections sd frameCount indices rects confidences :
  length (boxes sd) = CAPACITY ->
  Forall (fun idx => exact_rect (nth idx rects empty_rect))
    (take CAPACITY indices) ->
  map entry_detection
    (read_detections (publish sd frameCount indices rects confidences)) =
  map (fun idx => (nth idx rects empty_rect, nth idx confidences 0%Q))
    (take CAPACITY indices).
Proof.
  intros Hlen Hexact.
  rewrite (read_detections_publish _ _ _ _ _ Hlen), map_map.
  apply map_ext_in. intros idx Hin.
  rewrite Forall_forall in Hexact.
  destruct (Hexact idx (proj2 (list_elem_of_In _ _) Hin))
    as (Hx & Hy & Hw & Hh).
  unfold entry_detection, entry_rect, entry_at. simpl.
  rewrite !float_int_float by assumption.
  destruct (nth idx rects empty_rect). reflexivity.
Qed.

Lemma consumer_reads_back_detections_witness :
  let rects := [mkRect 0 0 10 10; mkRect 50 50 10 10] in
  length (boxes zeroed) = CAPACITY /\
  Forall (fun idx => exact_rect (nth idx rects empty_rect))
    (take CAPACITY [1%nat; 0%nat]) /\
  map entry_detection
    (read_detections
       (publish zeroed 1 [1%nat; 0%nat] rects [6 # 10; 9 # 10]%Q)) =
  [(mkRect 50 50 10 10, (9 # 10)%Q); (mkRect 0 0 10 10, (6 # 10)%Q)].
Proof.
  intros rects.
  assert (Hexact : Forall (fun idx => exact_rect (nth idx rects empty_rect))
                     (take CAPACITY [1%nat; 0%nat])).
  { repeat constructor; unfold exact_in_float; simpl; lia. }
  split; [ reflexivity | split; [ exact Hexact | ] ].
  rewrite (consumer_reads_back_detections zeroed 1 [1%nat; 0%nat]
             rects [6 # 10; 9 # 10]%Q eq_refl Hexact).
  reflexivity.
Defined.

(** Beyond 24 significant bits the store as [float] rounds: the coordinate
    16777217 is published as 16777216. *)
Example large_coordinate_rounds :
  int_to_float 16777217 = inject_Z 16777216 /\
  int_to_float 16777219 = inject_Z 16777220 /\
  float_to_int (3000000000 # 1) = INT_MIN.
Proof. repeat split. Qed.

(** X12.  The entries a consumer reads after a frame come by descending
    confidence. *)
Theorem record_in_descending_confidence fmul sd frame outs frameCount :
  length (boxes sd) = CAPACITY ->
  StronglySorted (fun a b => (box_confidence b <= box_confidence a)%Q)
    (read_detections (process_frame fmul sd frame outs frameCount)).
Proof.
  intros Hlen. unfold process_frame, frame_stores.
  set (cands := filter_outs fmul frame outs).
  set (confidences := map cand_confidence cands).
  set (rects := map cand_box cands).
  set (indices := NMSBoxes rects confidences confThreshold nmsThreshold).
  change (apply_stores sd (publish_stores frameCount indices rects confidences))
    with (publish sd frameCount indices rects confidences).
  rewrite (read_detections_publish _ _ _ _ _ Hlen).
  apply (StronglySorted_fmap (entry_at rects confidences)). simpl.
  eapply StronglySorted_sublist_of; [ apply sublist_take | ].
  apply NMSBoxes_descending.
Qed.

Lemma record_in_descending_confidence_witness :
  let frame := mkFrame 1200 100 [1] in
  let outs := [[crowd_row 2; crowd_row 0; crowd_row 1]] in
  let new := process_frame Qmult zeroed frame outs 1 in
  length (boxes zeroed) = CAPACITY /\
  map box_confidence (read_detections new) =
    [200 # 201; 199 # 201; 198 # 201]%Q /\
  map box_x (read_detections new) = [inject_Z 5; inject_Z 25; inject_Z 45] /\
  StronglySorted (fun a b => (box_confidence b <= box_confidence a)%Q)
    (read_detections new).
Proof.
  intros frame outs new.
  split; [ reflexivity | split; [ vm_compute; reflexivity | ] ].
  split; [ vm_compute; reflexivity | ].
  apply record_in_descending_confidence. reflexivity.
Defined.

(** ** Frames with few or no detections *)

Lemma filter_row_length fmul frame data :
  (length (filter_row fmul frame data) <= 1)%nat.
Proof.
  unfold filter_row. destruct (minMaxLoc (drop 5 data)) as [confidence classId].
  destruct ((classId =? 0) && Qgtb confidence confThreshold); simpl; lia.
Qed.

Lemma filter_outs_length fmul frame outs :
  (length (filter_outs fmul frame outs) <= total_rows outs)%nat.
Proof.
  unfold filter_outs, total_rows.
  induction outs as [ | out outs IH ]; [ simpl; lia | ].
  simpl. rewrite !length_app.
  assert (H : (length (flat_map (filter_row fmul frame) out) <= length out)%nat).
  { clear IH. induction out as [ | data out IH ]; [ simpl; lia | ].
    simpl. rewrite length_app.
    pose proof (filter_row_length fmul frame data). lia. }
  lia.
Qed.

(** X13.  A frame publishes no more detections than the filter lets
    through, no more than the inference gave rows, and never more than 50.
    A frame in which no row passes the filter is still published: the
    frame number is stored, the count is 0, and no entry is written. *)
Theorem detections_bounded_by_candidates fmul sd frame outs frameCount :
  let new := process_frame fmul sd frame outs frameCount in
  0 <= num_detections new <= 50 /\
  num_detections new <= Z.of_nat (length (filter_outs fmul frame outs)) /\
  (length (filter_outs fmul frame outs) <= total_rows outs)%nat /\
  (filter_outs fmul frame outs = [] ->
   new = mkDetectionData frameCount 0 (boxes sd) (processing_complete sd)).
Proof.
  intros new. subst new. unfold process_frame, frame_stores.
  set (cands := filter_outs fmul frame outs).
  set (confidences := map cand_confidence cands).
  set (rects := map cand_box cands).
  set (indices := NMSBoxes rects confidences confThreshold nmsThreshold).
  change (apply_stores sd (publish_stores frameCount indices rects confidences))
    with (publish sd frameCount indices rects confidences).
  destruct (publish_header sd frameCount indices rects confidences)
    as (_ & -> & _).
  assert (Hlen : (length indices <= length cands)%nat).
  { destruct (survivors_spec rects confidences confThreshold nmsThreshold)
      as (_ & _ & _ & H).
    unfold indices, NMSBoxes. rewrite length_map.
    unfold confidences in H. rewrite length_map in H. exact H. }
  split; [ apply capped_range | split; [ unfold capped; lia | split ] ].
  - apply filter_outs_length.
  - intros Hnone. subst indices rects confidences. rewrite Hnone.
    reflexivity.
Qed.

Lemma detections_bounded_by_candidates_witness :
  filter_outs Qmult good_frame [[]] = [] /\
  process_frame Qmult zeroed good_frame [[]] 4 =
    mkDetectionData 4 0 (boxes zeroed) false.
Proof.
  split; [ reflexivity | ].
  destruct (detections_bounded_by_candidates Qmult zeroed good_frame [[]] 4)
    as (_ & _ & _ & H).
  apply H. reflexivity.
Defined.

(** ** How far the integer box is from the real one *)

Lemma float_to_int_floor (q : Q) :
  pixel_range q ->
  0 <= float_to_int q <= INT_MAX /\
  (inject_Z (float_to_int q) <= q)%Q /\
  (q < inject_Z (float_to_int q) + 1)%Q.
Proof.
  destruct q as [n d]. unfold pixel_range, Qle, Qlt, float_to_int, trunc.
  simpl. intros [Hn Hmax]. rewrite Z.mul_1_r in Hn, Hmax.
  rewrite Z.quot_div_nonneg by lia.
  pose proof (Z.div_mod n (Z.pos d)) as Hdm.
  pose proof (Z.mod_pos_bound n (Z.pos d)) as Hmod.
  pose proof (Z.div_pos n (Z.pos d)) as Hpos.
  assert (Hlt : n / Z.pos d < 2147483648)
    by (apply Z.div_lt_upper_bound; lia).
  replace (in_int (n / Z.pos d)) with true.
  - unfold INT_MAX. split; [ lia | ]. split; nia.
  - symmetry. unfold in_int, INT_MIN, INT_MAX.
    apply andb_true_iff. split; apply Z.leb_le; lia.
Qed.

Lemma half_floor (w : Z) :
  0 <= w -> 2 * Z.quot w 2 <= w <= 2 * Z.quot w 2 + 1.
Proof.
  intros Hw. rewrite Z.quot_div_nonneg by lia.
  pose proof (Z.div_mod w 2). pose proof (Z.mod_pos_bound w 2). lia.
Qed.

(** The corner computed from two products in range stays within one pixel
    of [p - q/2], and the subtraction does not wrap. *)
Lemma corner_within_a_pixel (p q : Q) :
  pixel_range p -> pixel_range q ->
  (p - q / 2 - 1
   < inject_Z (wrap32 (float_to_int p - Z.quot (float_to_int q) 2)))%Q /\
  (inject_Z (wrap32 (float_to_int p - Z.quot (float_to_int q) 2))
   < p - q / 2 + 1)%Q.
Proof.
  intros Hp Hq.
  destruct (float_to_int_floor p Hp) as (Hc & Hp1 & Hp2).
  destruct (float_to_int_floor q Hq) as (Hw & Hq1 & Hq2).
  destruct (half_floor (float_to_int q) (proj1 Hw)) as [Hh1 Hh2].
  rewrite wrap32_small by (unfold INT_MAX in *; lia).
  rewrite Zle_Qle in Hh1, Hh2.
  rewrite inject_Z_mult in Hh1.
  rewrite inject_Z_plus, inject_Z_mult in Hh2.
  change (inject_Z 2) with 2%Q in *. change (inject_Z 1) with 1%Q in *.
  unfold Z.sub. rewrite inject_Z_plus, inject_Z_opp.
  clear Hw Hc Hp Hq.
  generalize dependent (inject_Z (Z.quot (float_to_int q) 2)).
  generalize dependent (inject_Z (float_to_int q)).
  generalize dependent (inject_Z (float_to_int p)).
  intros a Ha1 Ha2 w Hw1 Hw2 h Hh1 Hh2.
  unfold Qdiv. change (/ 2)%Q with (1 # 2)%Q. split; lra.
Qed.

(** X14.  When the four products of a row with the frame dimensions are not
    negative and below 2^31, so that every cast to [int] is defined, the
    published box differs from the real-valued box by less than one pixel in
    each coordinate: the width and the height are the products rounded
    down, and the corner lies within one pixel of center minus half the
    size. *)
Theorem decode_within_a_pixel fmul frame data :
  pixel_range (center_x_px fmul frame data) ->
  pixel_range (center_y_px fmul frame data) ->
  pixel_range (width_px fmul frame data) ->
  pixel_range (height_px fmul frame data) ->
  let box := decode fmul frame data in
  let left := (center_x_px fmul frame data - width_px fmul frame data / 2)%Q in
  let top := (center_y_px fmul frame data - height_px fmul frame data / 2)%Q in
  (left - 1 < inject_Z (rect_x box) /\ inject_Z (rect_x box) < left + 1)%Q /\
  (top - 1 < inject_Z (rect_y box) /\ inject_Z (rect_y box) < top + 1)%Q /\
  (0 <= rect_width box <= INT_MAX /\
   (inject_Z (rect_width box) <= width_px fmul frame data)%Q /\
   (width_px fmul frame data < inject_Z (rect_width box) + 1)%Q) /\
  (0 <= rect_height box <= INT_MAX /\
   (inject_Z (rect_height box) <= height_px fmul frame data)%Q /\
   (height_px fmul frame data < inject_Z (rect_height box) + 1)%Q).
Proof.
  intros Hcx Hcy Hw Hh box left top. subst box left top.
  unfold decode. cbn [rect_x rect_y rect_width rect_height].
  fold (center_x_px fmul frame data) (center_y_px fmul frame data)
    (width_px fmul frame data) (height_px fmul frame data).
  split; [ | split; [ | split ] ].
  - apply corner_within_a_pixel; assumption.
  - apply corner_within_a_pixel; assumption.
  - apply float_to_int_floor, Hw.
  - apply float_to_int_floor, Hh.
Qed.

Lemma decode_within_a_pixel_witness :
  let data := [1 # 2; 1 # 2; 1 # 2; 1 # 2; 1; 9 # 10; 1 # 10]%Q in
  pixel_range (center_x_px Qmult good_frame data) /\
  ((3 # 4) - 1 < inject_Z (rect_x (decode Qmult good_frame data)))%Q /\
  (inject_Z (rect_x (decode Qmult good_frame data)) < (3 # 4) + 1)%Q.
Proof.
  intros data.
  assert (H0 : pixel_range (center_x_px Qmult good_frame data))
    by (split; vm_compute; [ discriminate | reflexivity ]).
  assert (H1 : pixel_range (center_y_px Qmult good_frame data))
    by (split; vm_compute; [ discriminate | reflexivity ]).
  assert (H2 : pixel_range (width_px Qmult good_frame data))
    by (split; vm_compute; [ discriminate | reflexivity ]).
  assert (H3 : pixel_range (height_px Qmult good_frame data))
    by (split; vm_compute; [ discriminate | reflexivity ]).
  split; [ exact H0 | ].
  destruct (decode_within_a_pixel Qmult good_frame data H0 H1 H2 H3)
    as ([Ha Hb] & _).
  split; [ exact Ha | exact Hb ].
Defined.
